(** * InsiderRingAnalysis: a shallow embedding of the contract

    The development follows [contracts/InsiderRingAnalysis.sol].  Every public
    function of the contract becomes a Rocq function from a contract state to
    a [result]; a failed [require], a failed library check or a Solidity panic
    becomes [Revert], which carries no state because the EVM rolls the whole
    call back. *)

From Stdlib Require Import Strings.Byte.
From stdpp Require Import base numbers option list gmap.

Local Open Scope N_scope.

(** ** Solidity 0.8 runtime: reverts, checked arithmetic, arrays, loops *)

Module Solidity.

Inductive PanicCode : Type :=
| ArithmeticOverflow   (* Panic(0x11) *)
| ArrayOutOfBounds     (* Panic(0x32) *)
| AllocationTooLarge.  (* Panic(0x41) *)

(** The revert reasons of the contract.  The constructors carry the names of
    the specification's taxonomy; the comment gives the string the contract
    reverts with. *)
Inductive Error : Type :=
| IndexOutOfRange          (* "Invalid index" *)
| AnalysisNotComplete      (* "Analysis not complete" *)
| AlreadyRevealed          (* "Already revealed" *)
| InvalidRequest           (* "Invalid request" *)
| MatrixNotInitialized     (* "Matrix not initialized" *)
| ProofVerificationFailed  (* FHE.checkSignatures reverts *)
| DecodeFailed             (* abi.decode reverts *)
| Panic (code : PanicCode).

Inductive result (A : Type) : Type :=
| Ok (a : A)
| Revert (e : Error).
Global Arguments Ok {A} a.
Global Arguments Revert {A} e.

Global Instance result_ret : MRet result := fun A a => Ok a.
Global Instance result_bind : MBind result := fun A B f m =>
  match m with
  | Ok a => f a
  | Revert e => Revert e
  end.

Definition require (cond : bool) (e : Error) : result unit :=
  if cond then Ok tt else Revert e.

(** uint256 and uint32 as [N] with the range written out. *)
Definition uint256_limit : N := 2 ^ 256.
Definition uint32_limit : N := 2 ^ 32.

Definition checked_add (a b : N) : result N :=
  if decide (a + b < uint256_limit) then Ok (a + b)
  else Revert (Panic ArithmeticOverflow).

Definition checked_mul (a b : N) : result N :=
  if decide (a * b < uint256_limit) then Ok (a * b)
  else Revert (Panic ArithmeticOverflow).

Definition checked_sub (a b : N) : result N :=
  if decide (b ≤ a) then Ok (a - b)
  else Revert (Panic ArithmeticOverflow).

(** [a[i]] and [a[i] = v] on a memory or storage array: both are bounds
    checked and panic out of range. *)
Definition array_get {A} (a : list A) (i : N) : result A :=
  match a !! N.to_nat i with
  | Some x => Ok x
  | None => Revert (Panic ArrayOutOfBounds)
  end.

Definition array_set {A} (a : list A) (i : N) (v : A) : result (list A) :=
  if decide (i < N.of_nat (length a)) then Ok (<[N.to_nat i := v]> a)
  else Revert (Panic ArrayOutOfBounds).

(** The array that [new T[](n)] yields: [n] zero values of the element
    type.  Used bare where [n] is derived from the length of an array that
    exists already, and so is below the allocation limit. *)
Definition new_array {A} (zero : A) (n : N) : list A :=
  replicate (N.to_nat n) zero.

(** [new T[](n)] for a length computed from uint256 values: more than
    2^64 - 1 elements cannot be allocated and the expression panics. *)
Definition alloc_limit : N := 2 ^ 64.

Definition allocate {A} (zero : A) (n : N) : result (list A) :=
  if decide (n < alloc_limit) then Ok (new_array zero n)
  else Revert (Panic AllocationTooLarge).

(** [for (uint i = start; i < start + count; i++) body], the bound being
    loop invariant in every loop of the contract. *)
Fixpoint for_range {S} (start : N) (count : nat)
    (body : N → S → result S) (s : S) : result S :=
  match count with
  | O => Ok s
  | Datatypes.S c => s' ← body start s; for_range (N.succ start) c body s'
  end.

(** The same loop with a ghost counter: the number of iterations that ran
    to their end, whether the loop finished or reverted. *)
Fixpoint for_range_rounds {S} (start : N) (count : nat)
    (body : N → S → result S) (s : S) : nat :=
  match count with
  | O => O
  | Datatypes.S c =>
      match body start s with
      | Ok s' => Datatypes.S (for_range_rounds (N.succ start) c body s')
      | Revert _ => O
      end
  end.

(** The same loop with a ghost log: what [obs] sees of the loop variables
    on entry to every iteration that is started. *)
Fixpoint for_range_log {S O} (obs : N → S → O) (start : N) (count : nat)
    (body : N → S → result S) (s : S) : list O :=
  match count with
  | O => []
  | Datatypes.S c =>
      obs start s ::
      match body start s with
      | Ok s' => for_range_log obs (N.succ start) c body s'
      | Revert _ => []
      end
  end.

End Solidity.
Import Solidity.

(** ** The fhevm library and the decryption oracle

    [@fhevm/solidity] is an external dependency of the contract: its types and
    operations are taken as an interface, one field for each [FHE.] function
    the contract calls.  [ct_zero] is the zero value of the handle type, what
    an unset storage slot or a fresh memory array holds; [decrypt] is
    [FHE.decrypt], with the plaintext as a uint32; [toBytes32] gives the
    handle of a ciphertext; [checkSignatures] tells whether
    [FHE.checkSignatures] returns rather than reverts; [abi_decode_uint32s]
    is [abi.decode(cleartexts, (uint32[]))], [None] when it reverts.  The
    three laws say that [decrypt] inverts encryption and that [FHE.add] adds
    plaintexts modulo 2^32. *)

Class FHEVM : Type := {
  euint32 : Type;
  ebool : Type;
  ct_zero : euint32;
  asEuint32 : N → euint32;
  fhe_add : euint32 → euint32 → euint32;
  fhe_ne : euint32 → euint32 → ebool;
  fhe_gt : euint32 → euint32 → ebool;
  fhe_and : ebool → ebool → ebool;
  fhe_select : ebool → euint32 → euint32 → euint32;
  decrypt : euint32 → N;
  toBytes32 : euint32 → N;
  checkSignatures : N → list Byte.byte → list Byte.byte → bool;
  abi_decode_uint32s : list Byte.byte → option (list N);
  decrypt_range : ∀ c, decrypt c < uint32_limit;
  decrypt_asEuint32 : ∀ n, decrypt (asEuint32 n) = n `mod` uint32_limit;
  decrypt_add : ∀ a b,
    decrypt (fhe_add a b) = (decrypt a + decrypt b) `mod` uint32_limit;
}.

(** ** Contract storage *)

Section Contract.
Context `{F : FHEVM}.

Record EncryptedTransaction : Type := {
  id : N;
  encryptedTraderId : euint32;
  encryptedCounterparty : euint32;
  encryptedSecurity : euint32;
  encryptedAmount : euint32;
  encryptedTimestamp : euint32;
  submissionTime : N;
}.

Record AnalysisResult : Type := {
  encryptedRingMembers : list euint32;
  encryptedRiskScore : euint32;
  isComplete : bool;
}.

Record DecryptedResult : Type := {
  ringMembers : list N;
  riskScore : N;
  isRevealed : bool;
}.

(** What leaves the contract: its events, and the batch it hands to the
    oracle in [FHE.requestDecryption]. *)
Inductive Event : Type :=
| TransactionSubmitted (id timestamp : N)
| AnalysisStarted (analysisId : N)
| AnalysisCompleted (analysisId : N)
| ResultRevealed (analysisId : N)
| DecryptionRequested (requestId : N) (ciphertexts : list N).

Record State : Type := {
  transactionCount : N;
  encryptedTransactions : gmap N EncryptedTransaction;
  analysisResults : gmap N AnalysisResult;
  decryptedResults : gmap N DecryptedResult;
  encryptedAdjacencyMatrix : list euint32;
  matrixSize : N;
  requestToAnalysisId : gmap N N;
  events : list Event;
}.

(** A Solidity mapping is total: a key never written reads as the zero value
    of the value type. *)
Definition zero_AnalysisResult : AnalysisResult :=
  {| encryptedRingMembers := []; encryptedRiskScore := ct_zero;
     isComplete := false |}.

Definition zero_DecryptedResult : DecryptedResult :=
  {| ringMembers := []; riskScore := 0; isRevealed := false |}.

Definition analysisResults_at (s : State) (k : N) : AnalysisResult :=
  default zero_AnalysisResult (analysisResults s !! k).

Definition decryptedResults_at (s : State) (k : N) : DecryptedResult :=
  default zero_DecryptedResult (decryptedResults s !! k).

Definition requestToAnalysisId_at (s : State) (k : N) : N :=
  default 0 (requestToAnalysisId s !! k).

(** The storage of a freshly deployed contract. *)
Definition deployed : State :=
  {| transactionCount := 0; encryptedTransactions := ∅;
     analysisResults := ∅; decryptedResults := ∅;
     encryptedAdjacencyMatrix := []; matrixSize := 0;
     requestToAnalysisId := ∅; events := [] |}.

Definition emit (e : Event) (s : State) : State :=
  {| transactionCount := transactionCount s;
     encryptedTransactions := encryptedTransactions s;
     analysisResults := analysisResults s;
     decryptedResults := decryptedResults s;
     encryptedAdjacencyMatrix := encryptedAdjacencyMatrix s;
     matrixSize := matrixSize s;
     requestToAnalysisId := requestToAnalysisId s;
     events := events s ++ [e] |}.

Definition set_matrix (size : N) (m : list euint32) (s : State) : State :=
  {| transactionCount := transactionCount s;
     encryptedTransactions := encryptedTransactions s;
     analysisResults := analysisResults s;
     decryptedResults := decryptedResults s;
     encryptedAdjacencyMatrix := m;
     matrixSize := size;
     requestToAnalysisId := requestToAnalysisId s;
     events := events s |}.

Definition set_results (a : gmap N AnalysisResult)
    (d : gmap N DecryptedResult) (s : State) : State :=
  {| transactionCount := transactionCount s;
     encryptedTransactions := encryptedTransactions s;
     analysisResults := a;
     decryptedResults := d;
     encryptedAdjacencyMatrix := encryptedAdjacencyMatrix s;
     matrixSize := matrixSize s;
     requestToAnalysisId := requestToAnalysisId s;
     events := events s |}.

Definition set_requests (r : gmap N N) (s : State) : State :=
  {| transactionCount := transactionCount s;
     encryptedTransactions := encryptedTransactions s;
     analysisResults := analysisResults s;
     decryptedResults := decryptedResults s;
     encryptedAdjacencyMatrix := encryptedAdjacencyMatrix s;
     matrixSize := matrixSize s;
     requestToAnalysisId := r;
     events := events s |}.

Definition set_ledger (n : N) (t : gmap N EncryptedTransaction)
    (s : State) : State :=
  {| transactionCount := n;
     encryptedTransactions := t;
     analysisResults := analysisResults s;
     decryptedResults := decryptedResults s;
     encryptedAdjacencyMatrix := encryptedAdjacencyMatrix s;
     matrixSize := matrixSize s;
     requestToAnalysisId := requestToAnalysisId s;
     events := events s |}.

(** ** The functions of the contract *)

(** [submitEncryptedTransaction]; [now] is [block.timestamp]. *)
Definition submitEncryptedTransaction
    (trader counterparty security amount timestamp : euint32) (now : N)
    (s : State) : result State :=
  newId ← checked_add (transactionCount s) 1;
  let tx := {| id := newId; encryptedTraderId := trader;
               encryptedCounterparty := counterparty;
               encryptedSecurity := security; encryptedAmount := amount;
               encryptedTimestamp := timestamp; submissionTime := now |} in
  Ok (emit (TransactionSubmitted newId now)
        (set_ledger newId (<[newId := tx]> (encryptedTransactions s)) s)).

(** [initializeAdjacencyMatrix]: the product [size * size], the allocation
    of that many cells, then the loop that writes [FHE.asEuint32(0)] into
    every cell. *)
Definition initializeAdjacencyMatrix (size : N) (s : State) : result State :=
  cells ← checked_mul size size;
  fresh ← allocate ct_zero cells;
  m ← for_range 0 (N.to_nat cells)
        (fun i m => array_set m i (asEuint32 0))
        fresh;
  Ok (set_matrix size m s).

(** [addEncryptedEdge]. *)
Definition addEncryptedEdge (from to : N) (weight : euint32) (s : State)
    : result State :=
  _ ← require (bool_decide (from < matrixSize s ∧ to < matrixSize s))
        IndexOutOfRange;
  row ← checked_mul from (matrixSize s);
  k ← checked_add row to;
  m ← array_set (encryptedAdjacencyMatrix s) k weight;
  Ok (set_matrix (matrixSize s) m s).

(** [getAdjacencyElement], a view. *)
Definition getAdjacencyElement (i j : N) (s : State) : result euint32 :=
  _ ← require (bool_decide (i < matrixSize s ∧ j < matrixSize s))
        IndexOutOfRange;
  row ← checked_mul i (matrixSize s);
  k ← checked_add row j;
  array_get (encryptedAdjacencyMatrix s) k.

(** [startRingDetection]; [now] is [block.timestamp]. *)
Definition startRingDetection (now : N) (s : State) : result State :=
  Ok (emit (AnalysisStarted now) s).

(** [storeAnalysisResults]: both mappings are assigned unconditionally. *)
Definition storeAnalysisResults (analysisId : N) (encryptedRing : list euint32)
    (score : euint32) (s : State) : result State :=
  let a := {| encryptedRingMembers := encryptedRing;
              encryptedRiskScore := score; isComplete := true |} in
  let d := {| ringMembers := new_array 0 0; riskScore := 0;
              isRevealed := false |} in
  Ok (emit (AnalysisCompleted analysisId)
        (set_results (<[analysisId := a]> (analysisResults s))
                     (<[analysisId := d]> (decryptedResults s)) s)).

(** The batch built by [requestResultDecryption]: an array of
    [length + 1] words, the loop over the ring members, then the score
    written at index [length].  The stored array came in as a memory array,
    whose length is far below 2^64 - 1, so the addition [length + 1] neither
    overflows a uint256 nor exceeds what can be allocated. *)
Definition decryptionBatch (r : AnalysisResult) : result (list N) :=
  let len := N.of_nat (length (encryptedRingMembers r)) in
  let totalElements := len + 1 in
  cts ← for_range 0 (length (encryptedRingMembers r))
          (fun i cts =>
             m ← array_get (encryptedRingMembers r) i;
             array_set cts i (toBytes32 m))
          (new_array 0 totalElements);
  array_set cts len (toBytes32 (encryptedRiskScore r)).

(** [requestResultDecryption]; [reqId] is the token that the oracle returns
    from [FHE.requestDecryption]. *)
Definition requestResultDecryption (analysisId : N) (reqId : N) (s : State)
    : result State :=
  let r := analysisResults_at s analysisId in
  _ ← require (isComplete r) AnalysisNotComplete;
  _ ← require (negb (isRevealed (decryptedResults_at s analysisId)))
        AlreadyRevealed;
  cts ← decryptionBatch r;
  Ok (set_requests (<[reqId := analysisId]> (requestToAnalysisId s))
        (emit (DecryptionRequested reqId cts) s)).

(** The copy loop of [decryptAnalysisResult]: [members] gets the first
    [length - 1] entries of [results]; the new array is shorter than
    [results], which is in memory already. *)
Definition copyMembers (results : list N) : result (list N) :=
  n ← checked_sub (N.of_nat (length results)) 1;
  for_range 0 (N.to_nat n)
    (fun i members => x ← array_get results i; array_set members i x)
    (new_array 0 n).

(** [decryptAnalysisResult], the oracle's callback. *)
Definition decryptAnalysisResult (requestId : N)
    (cleartexts proof : list Byte.byte) (s : State) : result State :=
  let analysisId := requestToAnalysisId_at s requestId in
  _ ← require (negb (bool_decide (analysisId = 0))) InvalidRequest;
  let dResult := decryptedResults_at s analysisId in
  _ ← require (negb (isRevealed dResult)) AlreadyRevealed;
  _ ← require (checkSignatures requestId cleartexts proof)
        ProofVerificationFailed;
  results ← match abi_decode_uint32s cleartexts with
            | Some l => Ok l
            | None => Revert DecodeFailed
            end;
  members ← copyMembers results;
  n1 ← checked_sub (N.of_nat (length results)) 1;
  score ← array_get results n1;
  let d := {| ringMembers := members; riskScore := score;
              isRevealed := true |} in
  Ok (emit (ResultRevealed analysisId)
        (set_results (analysisResults s)
                     (<[analysisId := d]> (decryptedResults s)) s)).

(** [getEncryptedAnalysisResult] and [getDecryptedAnalysisResult], views. *)
Definition getEncryptedAnalysisResult (analysisId : N) (s : State)
    : result (list euint32 * euint32) :=
  let r := analysisResults_at s analysisId in
  _ ← require (isComplete r) AnalysisNotComplete;
  Ok (encryptedRingMembers r, encryptedRiskScore r).

Definition getDecryptedAnalysisResult (analysisId : N) (s : State)
    : result (list N * N * bool) :=
  let r := decryptedResults_at s analysisId in
  Ok (ringMembers r, riskScore r, isRevealed r).

(** ** [encryptedBFS] *)

(** The memory variables of [encryptedBFS]. *)
Record BfsLocals : Type := {
  visited : list euint32;
  queue : list euint32;
  bfs_result : list euint32;
  current : euint32;
  index : euint32;
}.

(** The first loop: every entry of the three arrays is set to an encryption
    of zero. *)
Definition bfs_init (i : N) (l : BfsLocals) : result BfsLocals :=
  v ← array_set (visited l) i (asEuint32 0);
  q ← array_set (queue l) i (asEuint32 0);
  r ← array_set (bfs_result l) i (asEuint32 0);
  Ok {| visited := v; queue := q; bfs_result := r;
        current := current l; index := index l |}.

(** The subscripts of the second loop: [visited[FHE.decrypt(current)]] and
    [result[FHE.decrypt(index)]]. *)
Definition visited_subscript (l : BfsLocals) : N := decrypt (current l).
Definition result_subscript (l : BfsLocals) : N := decrypt (index l).

(** One round of the second loop; the loop counter [i] is not used by the
    body. *)
Definition bfs_round (i : N) (l : BfsLocals) : result BfsLocals :=
  v ← array_get (visited l) (visited_subscript l);
  let isVisited := fhe_ne v (asEuint32 1) in
  let shouldVisit := fhe_and isVisited (fhe_gt (current l) (asEuint32 0)) in
  v' ← array_get (visited l) (visited_subscript l);
  vis ← array_set (visited l) (visited_subscript l)
          (fhe_select shouldVisit (asEuint32 1) v');
  r ← array_get (bfs_result l) (result_subscript l);
  res ← array_set (bfs_result l) (result_subscript l)
          (fhe_select shouldVisit (current l) r);
  Ok {| visited := vis; queue := queue l; bfs_result := res;
        current := fhe_add (current l) (asEuint32 1);
        index := fhe_add (index l) (asEuint32 1) |}.

(** The variables on entry to the second loop, when the first one finishes. *)
Definition bfs_setup (startNode : euint32) (s : State) : result BfsLocals :=
  v ← allocate ct_zero (matrixSize s);
  q ← allocate ct_zero (matrixSize s);
  r ← allocate ct_zero (matrixSize s);
  for_range 0 (N.to_nat (matrixSize s)) bfs_init
    {| visited := v; queue := q; bfs_result := r;
       current := startNode; index := asEuint32 0 |}.

Definition encryptedBFS (startNode : euint32) (s : State)
    : result (list euint32) :=
  _ ← require (bool_decide (0 < matrixSize s)) MatrixNotInitialized;
  l0 ← bfs_setup startNode s;
  l ← for_range 0 (N.to_nat (matrixSize s)) bfs_round l0;
  Ok (bfs_result l).

(** Ghost views of the second loop of [encryptedBFS]: how many rounds run to
    their end, and which subscripts each started round uses, next to its
    round counter. *)
Definition encryptedBFS_rounds (startNode : euint32) (s : State) : nat :=
  match bfs_setup startNode s with
  | Ok l0 => for_range_rounds 0 (N.to_nat (matrixSize s)) bfs_round l0
  | Revert _ => O
  end.

Record Access : Type := {
  round : N;
  visited_at : N;
  result_at : N;
}.

Definition bfs_access (i : N) (l : BfsLocals) : Access :=
  {| round := i; visited_at := visited_subscript l;
     result_at := result_subscript l |}.

Definition encryptedBFS_accesses (startNode : euint32) (s : State)
    : list Access :=
  match bfs_setup startNode s with
  | Ok l0 => for_range_log bfs_access 0 (N.to_nat (matrixSize s)) bfs_round l0
  | Revert _ => []
  end.

(** ** Transactions and histories *)

Inductive Call : Type :=
| Submit (trader counterparty security amount timestamp : euint32) (now : N)
| InitMatrix (size : N)
| AddEdge (from to : N) (weight : euint32)
| StartDetection (now : N)
| Store (analysisId : N) (encryptedRing : list euint32) (score : euint32)
| RequestReveal (analysisId reqId : N)
| Callback (requestId : N) (cleartexts proof : list Byte.byte).

Definition call (c : Call) (s : State) : result State :=
  match c with
  | Submit t c e a ts now => submitEncryptedTransaction t c e a ts now s
  | InitMatrix size => initializeAdjacencyMatrix size s
  | AddEdge from to w => addEncryptedEdge from to w s
  | StartDetection now => startRingDetection now s
  | Store a ring score => storeAnalysisResults a ring score s
  | RequestReveal a reqId => requestResultDecryption a reqId s
  | Callback r cleartexts proof => decryptAnalysisResult r cleartexts proof s
  end.

(** A reverted transaction leaves the storage as it was. *)
Definition exec (s : State) (c : Call) : State :=
  match call c s with
  | Ok s' => s'
  | Revert _ => s
  end.

Definition run (cs : list Call) (s : State) : State := foldl exec s cs.

Definition reachable (s : State) : Prop := ∃ cs, s = run cs deployed.

(** Which calls write the Decrypted Result of [analysisId] afresh, and which
    record a mapping for the token [reqId]. *)
Definition stores_on (analysisId : N) (c : Call) : bool :=
  match c with
  | Store a _ _ => bool_decide (a = analysisId)
  | _ => false
  end.

Definition issues_token (reqId : N) (c : Call) : bool :=
  match c with
  | RequestReveal _ r => bool_decide (r = reqId)
  | _ => false
  end.

(** The Decrypted Result after a callback that delivers [results]: all but
    the last plaintext, the last plaintext, and the flag. *)
Definition revealed_of (results : list N) : DecryptedResult :=
  {| ringMembers := take (length results - 1) results;
     riskScore := default 0 (last results);
     isRevealed := true |}.

Definition unrevealed : DecryptedResult :=
  {| ringMembers := []; riskScore := 0; isRevealed := false |}.

(** The matrix invariant of the data model. *)
Definition matrix_wf (s : State) : Prop :=
  N.of_nat (length (encryptedAdjacencyMatrix s)) = matrixSize s * matrixSize s
  ∧ matrixSize s * matrixSize s < uint256_limit.

End Contract.

(** ** A transparent instance of the library

    Ciphertexts are their plaintexts and [abi_decode_uint32s] decodes the
    canonical ABI encoding of a [uint32[]]; used to run the contract on
    concrete inputs. *)

Definition word_of_bytes (bs : list Byte.byte) : N :=
  foldl (fun acc b => acc * 256 + Byte.to_N b) 0 bs.

Fixpoint words (n : nat) (bs : list Byte.byte) : list N :=
  match n with
  | O => []
  | S n' => word_of_bytes (take 32 bs) :: words n' (drop 32 bs)
  end.

Definition plain_abi_decode (bs : list Byte.byte) : option (list N) :=
  if decide (length bs `mod` 32 = 0)%nat then
    match words (length bs / 32) bs with
    | off :: n :: xs =>
        if decide (off = 32 ∧ n = N.of_nat (length xs)
                   ∧ Forall (fun x => x < uint32_limit) xs)
        then Some xs else None
    | _ => None
    end
  else None.

Fixpoint bytes_of_word (n : nat) (w : N) : list Byte.byte :=
  match n with
  | O => []
  | S n' =>
      bytes_of_word n' (w `div` 256)
      ++ [default Byte.x00 (Byte.of_N (w `mod` 256))]
  end.

Definition plain_abi_encode (xs : list N) : list Byte.byte :=
  concat (map (bytes_of_word 32) (32 :: N.of_nat (length xs) :: xs)).

Definition plain_FHEVM : FHEVM :=
  {| euint32 := N;
     ebool := bool;
     ct_zero := 0;
     asEuint32 := fun n => n `mod` uint32_limit;
     fhe_add := fun a b => (a + b) `mod` uint32_limit;
     fhe_ne := fun a b => negb (a =? b);
     fhe_gt := fun a b => b <? a;
     fhe_and := andb;
     fhe_select := fun (c : bool) a b => if c then a else b;
     decrypt := fun c => c `mod` uint32_limit;
     toBytes32 := fun c => c;
     checkSignatures := fun _ _ proof => negb (bool_decide (proof = []));
     abi_decode_uint32s := plain_abi_decode;
     decrypt_range := fun c =>
       N.mod_upper_bound c uint32_limit ltac:(discriminate);
     decrypt_asEuint32 := fun n => N.Div0.mod_mod n uint32_limit;
     decrypt_add := fun a b =>
       eq_trans (N.Div0.mod_mod (a + b) uint32_limit)
                (N.Div0.add_mod a b uint32_limit) |}.

(** ** Concrete histories, run on the transparent instance *)

Section Histories.
#[local] Existing Instance plain_FHEVM.

(** One analysis stored under id 1, its decryption requested with token 7,
    and the callback delivered with plaintexts [5; 9; 7]. *)
Definition revealed_once : State :=
  run [Store 1 [11; 12] 13; RequestReveal 1 7;
       Callback 7 (plain_abi_encode [5; 9; 7]) [Byte.x01]] deployed.

(** One analysis stored under id 1 and its decryption requested with
    token 7, the callback still outstanding. *)
Definition request_pending : State :=
  run [Store 1 [11; 12] 13; RequestReveal 1 7] deployed.

(** A 3 x 3 matrix and no edge. *)
Definition matrix_of_three : State := run [InitMatrix 3] deployed.

End Histories.

(** ** The runtime: arrays and loops *)

Lemma bind_Ok {A B} (x : A) (k : A → result B) : (Ok x ≫= k) = k x.
Proof. reflexivity. Qed.

Section Arrays.
Context {A : Type}.
Implicit Types (a : list A) (i : N).

Lemma array_get_Some a i x :
  a !! N.to_nat i = Some x → array_get a i = Ok x.
Proof. unfold array_get. by intros ->. Qed.

Lemma array_get_oob a i :
  N.of_nat (length a) ≤ i → array_get a i = Revert (Panic ArrayOutOfBounds).
Proof.
  intros Hi. unfold array_get.
  rewrite (lookup_ge_None_2 a (N.to_nat i)); [done | lia].
Qed.

Lemma array_set_in a i v :
  i < N.of_nat (length a) → array_set a i v = Ok (<[N.to_nat i := v]> a).
Proof. intros Hi. unfold array_set. by rewrite decide_True. Qed.

Lemma take_succ_insert a (k : nat) v :
  (k < length a)%nat → take (S k) (<[k := v]> a) = take k a ++ [v].
Proof.
  intros Hk.
  rewrite (take_S_r _ _ v) by (by apply list_lookup_insert_eq).
  by rewrite take_insert_ge.
Qed.

(** A loop that stores the same value at every index of a range. *)
Lemma for_range_fill (v : A) (c k : nat) a :
  (k + c ≤ length a)%nat →
  for_range (N.of_nat k) c (fun i m => array_set m i v) a
  = Ok (take k a ++ replicate c v ++ drop (k + c) a).
Proof.
  revert k a. induction c as [|c IH]; intros k a Hlen; simpl.
  - by rewrite Nat.add_0_r, take_drop.
  - rewrite array_set_in by lia. simpl.
    rewrite <- Nat2N.inj_succ, Nat2N.id.
    rewrite IH by (rewrite length_insert; lia).
    rewrite take_succ_insert by lia.
    rewrite drop_insert_lt by lia.
    rewrite <- (assoc_L (++)). simpl.
    by rewrite Nat.add_succ_r.
Qed.

End Arrays.

(** A loop that copies a range of [src] through [f] into the same range of
    the destination. *)
Lemma for_range_copy {A B} (f : A → B) (src : list A) (c k : nat) (dst : list B) :
  (k + c ≤ length src)%nat → (k + c ≤ length dst)%nat →
  for_range (N.of_nat k) c
    (fun i d => x ← array_get src i; array_set d i (f x)) dst
  = Ok (take k dst ++ (f <$> take c (drop k src)) ++ drop (k + c) dst).
Proof.
  revert k dst. induction c as [|c IH]; intros k dst Hs Hd; simpl.
  - by rewrite Nat.add_0_r, take_drop.
  - destruct (lookup_lt_is_Some_2 src k) as [x Hx]; [lia|].
    rewrite (array_get_Some src (N.of_nat k) x) by (by rewrite Nat2N.id).
    rewrite bind_Ok. cbv beta. rewrite array_set_in by lia.
    rewrite Nat2N.id. simpl.
    rewrite <- Nat2N.inj_succ.
    rewrite IH by (rewrite ?length_insert; lia).
    rewrite take_succ_insert by lia.
    rewrite drop_insert_lt by lia.
    rewrite (drop_S src x k Hx). simpl.
    rewrite <- (assoc_L (++)). simpl.
    by rewrite Nat.add_succ_r.
Qed.

Lemma for_range_copy_prefix {A B} (f : A → B) (src : list A) (c : nat)
    (dst : list B) :
  (c ≤ length src)%nat → (c ≤ length dst)%nat →
  for_range 0 c (fun i d => x ← array_get src i; array_set d i (f x)) dst
  = Ok ((f <$> take c src) ++ drop c dst).
Proof. intros Hs Hd. exact (for_range_copy f src c 0 dst Hs Hd). Qed.

Lemma for_range_fill_all {A} (v z : A) (n : N) :
  for_range 0 (N.to_nat n) (fun i m => array_set m i v) (new_array z n)
  = Ok (replicate (N.to_nat n) v).
Proof.
  pose proof (for_range_fill v (N.to_nat n) 0 (new_array z n)) as Hloop.
  change (N.of_nat 0) with 0 in Hloop.
  rewrite Hloop by (unfold new_array; rewrite length_replicate; lia).
  simpl. rewrite drop_ge by (unfold new_array; rewrite length_replicate; lia).
  by rewrite app_nil_r.
Qed.

(** ** The functions of the contract, one by one *)

Section Functions.
Context `{F : FHEVM}.
Implicit Types (s : State) (r : AnalysisResult).

Lemma require_true (e : Error) : require true e = Ok tt.
Proof. reflexivity. Qed.

Lemma new_array_length {A} (z : A) (n : N) :
  length (new_array z n) = N.to_nat n.
Proof. apply length_replicate. Qed.

Lemma allocate_Ok {A} (z : A) (n : N) :
  n < alloc_limit → allocate z n = Ok (new_array z n).
Proof. intros Hn. unfold allocate. by rewrite decide_True. Qed.

Lemma allocate_too_large {A} (z : A) (n : N) :
  alloc_limit ≤ n → allocate z n = Revert (Panic AllocationTooLarge).
Proof. intros Hn. unfold allocate. by rewrite decide_False by lia. Qed.

Lemma alloc_limit_fits : alloc_limit < uint256_limit.
Proof. reflexivity. Qed.

Lemma uint32_limit_allocates : uint32_limit < alloc_limit.
Proof. reflexivity. Qed.

(** The batch is the ring members in order, then the risk score. *)
Lemma decryptionBatch_spec r :
  decryptionBatch r
  = Ok ((toBytes32 <$> encryptedRingMembers r)
        ++ [toBytes32 (encryptedRiskScore r)]).
Proof.
  unfold decryptionBatch.
  set (ms := encryptedRingMembers r).
  rewrite (for_range_copy_prefix toBytes32 ms)
    by (rewrite ?new_array_length; lia).
  rewrite bind_Ok, firstn_all.
  unfold new_array.
  replace (N.to_nat (N.of_nat (length ms) + 1)) with (length ms + 1)%nat
    by lia.
  rewrite replicate_add, drop_app_length'
    by (by rewrite length_replicate).
  rewrite array_set_in
    by (rewrite length_app, length_fmap; simpl; lia).
  rewrite Nat2N.id.
  rewrite <- (length_fmap toBytes32 ms) at 1.
  by rewrite insert_app_r_alt, Nat.sub_diag by lia.
Qed.

(** The copy loop keeps all but the last plaintext. *)
Lemma copyMembers_spec (results : list N) :
  results ≠ [] →
  copyMembers results = Ok (take (length results - 1) results).
Proof.
  intros Hne. unfold copyMembers, checked_sub.
  assert (1 ≤ length results)%nat by (destruct results; [done | simpl; lia]).
  rewrite decide_True by lia. rewrite bind_Ok.
  replace (N.to_nat (N.of_nat (length results) - 1))
    with (length results - 1)%nat by lia.
  pose proof (for_range_copy_prefix (fun x : N => x) results
                (length results - 1)
                (new_array 0 (N.of_nat (length results) - 1))) as Hloop.
  cbv beta in Hloop.
  rewrite Hloop by (rewrite ?new_array_length; lia).
  rewrite list_fmap_id.
  rewrite drop_ge by (rewrite new_array_length; lia).
  by rewrite app_nil_r.
Qed.

Lemma copyMembers_nil :
  copyMembers [] = Revert (Panic ArithmeticOverflow).
Proof. reflexivity. Qed.

(** [initializeAdjacencyMatrix] has one failure, the overflow of
    [size * size]; otherwise every cell is [FHE.asEuint32(0)]. *)
Lemma initializeAdjacencyMatrix_Ok (size : N) s :
  size * size < alloc_limit →
  initializeAdjacencyMatrix size s
  = Ok (set_matrix size (replicate (N.to_nat (size * size)) (asEuint32 0)) s).
Proof.
  intros Hfit. pose proof alloc_limit_fits.
  unfold initializeAdjacencyMatrix, checked_mul.
  rewrite decide_True by lia. rewrite bind_Ok.
  rewrite allocate_Ok, bind_Ok by done.
  by rewrite for_range_fill_all.
Qed.

Lemma initializeAdjacencyMatrix_too_large (size : N) s :
  alloc_limit ≤ size * size → size * size < uint256_limit →
  initializeAdjacencyMatrix size s = Revert (Panic AllocationTooLarge).
Proof.
  intros Hbig Hfit. unfold initializeAdjacencyMatrix, checked_mul.
  rewrite decide_True by done. rewrite bind_Ok.
  by rewrite allocate_too_large.
Qed.

Lemma initializeAdjacencyMatrix_overflow (size : N) s :
  uint256_limit ≤ size * size →
  initializeAdjacencyMatrix size s = Revert (Panic ArithmeticOverflow).
Proof.
  intros Hbig. unfold initializeAdjacencyMatrix, checked_mul.
  by rewrite decide_False by lia.
Qed.

(** The flattened subscript [from * matrixSize + to] of a cell. *)
Lemma cell_in_range s (from to : N) :
  matrix_wf s → from < matrixSize s → to < matrixSize s →
  from * matrixSize s + to < N.of_nat (length (encryptedAdjacencyMatrix s))
  ∧ from * matrixSize s + to < uint256_limit.
Proof.
  intros [Hlen Hfit] Hf Ht. rewrite Hlen.
  assert (from * matrixSize s + to < matrixSize s * matrixSize s) by nia.
  lia.
Qed.

Lemma addEncryptedEdge_Ok s (from to : N) (w : euint32) :
  matrix_wf s → from < matrixSize s → to < matrixSize s →
  addEncryptedEdge from to w s
  = Ok (set_matrix (matrixSize s)
          (<[N.to_nat (from * matrixSize s + to) := w]>
             (encryptedAdjacencyMatrix s)) s).
Proof.
  intros Hwf Hf Ht. destruct (cell_in_range s from to) as [Hin Hfit]; [done..|].
  unfold addEncryptedEdge, checked_mul, checked_add.
  rewrite bool_decide_eq_true_2 by done. rewrite require_true, bind_Ok.
  rewrite decide_True by lia. rewrite bind_Ok.
  rewrite decide_True by lia. rewrite bind_Ok.
  by rewrite array_set_in by done.
Qed.

Lemma addEncryptedEdge_oob s (from to : N) (w : euint32) :
  ¬ (from < matrixSize s ∧ to < matrixSize s) →
  addEncryptedEdge from to w s = Revert IndexOutOfRange.
Proof.
  intros Hno. unfold addEncryptedEdge.
  by rewrite bool_decide_eq_false_2 by done.
Qed.

Lemma getAdjacencyElement_oob s (i j : N) :
  ¬ (i < matrixSize s ∧ j < matrixSize s) →
  getAdjacencyElement i j s = Revert IndexOutOfRange.
Proof.
  intros Hno. unfold getAdjacencyElement.
  by rewrite bool_decide_eq_false_2 by done.
Qed.

Lemma getAdjacencyElement_lookup s (i j : N) (c : euint32) :
  matrix_wf s → i < matrixSize s → j < matrixSize s →
  encryptedAdjacencyMatrix s !! N.to_nat (i * matrixSize s + j) = Some c →
  getAdjacencyElement i j s = Ok c.
Proof.
  intros Hwf Hi Hj Hc. destruct (cell_in_range s i j) as [Hin Hfit]; [done..|].
  unfold getAdjacencyElement, checked_mul, checked_add.
  rewrite bool_decide_eq_true_2 by done. rewrite require_true, bind_Ok.
  rewrite decide_True by lia. rewrite bind_Ok.
  rewrite decide_True by lia. rewrite bind_Ok.
  by apply array_get_Some.
Qed.

Lemma matrix_wf_set_cell s (k : nat) (w : euint32) :
  matrix_wf s →
  matrix_wf (set_matrix (matrixSize s)
               (<[k := w]> (encryptedAdjacencyMatrix s)) s).
Proof. unfold matrix_wf. simpl. by rewrite length_insert. Qed.

(** [requestResultDecryption] in closed form: two guards, then the token is
    recorded and the batch handed over. *)
Lemma requestResultDecryption_spec (analysisId reqId : N) s :
  requestResultDecryption analysisId reqId s
  = let r := analysisResults_at s analysisId in
    if isComplete r then
      if isRevealed (decryptedResults_at s analysisId)
      then Revert AlreadyRevealed
      else Ok (set_requests (<[reqId := analysisId]> (requestToAnalysisId s))
                 (emit (DecryptionRequested reqId
                          ((toBytes32 <$> encryptedRingMembers r)
                           ++ [toBytes32 (encryptedRiskScore r)])) s))
    else Revert AnalysisNotComplete.
Proof.
  unfold requestResultDecryption. cbv zeta.
  destruct (isComplete _); [|done].
  rewrite require_true, bind_Ok.
  destruct (isRevealed _); [done|].
  simpl negb. rewrite require_true, bind_Ok.
  by rewrite decryptionBatch_spec, bind_Ok.
Qed.

(** [decryptAnalysisResult] in closed form. *)
Lemma decryptAnalysisResult_spec (requestId : N)
    (cleartexts proof : list Byte.byte) s :
  decryptAnalysisResult requestId cleartexts proof s
  = let analysisId := requestToAnalysisId_at s requestId in
    if bool_decide (analysisId = 0) then Revert InvalidRequest
    else if isRevealed (decryptedResults_at s analysisId)
    then Revert AlreadyRevealed
    else if checkSignatures requestId cleartexts proof then
      match abi_decode_uint32s cleartexts with
      | None => Revert DecodeFailed
      | Some [] => Revert (Panic ArithmeticOverflow)
      | Some results =>
          Ok (emit (ResultRevealed analysisId)
                (set_results (analysisResults s)
                   (<[analysisId := revealed_of results]>
                      (decryptedResults s)) s))
      end
    else Revert ProofVerificationFailed.
Proof.
  unfold decryptAnalysisResult. cbv zeta.
  destruct (bool_decide _); [done|].
  simpl negb. rewrite require_true, bind_Ok.
  destruct (isRevealed _); [done|].
  simpl negb. rewrite require_true, bind_Ok.
  destruct (checkSignatures _ _ _); [|done].
  rewrite require_true, bind_Ok.
  destruct (abi_decode_uint32s cleartexts) as [results|]; [|done].
  rewrite bind_Ok.
  destruct (decide (results = [])) as [->|Hne]; [done|].
  rewrite copyMembers_spec, bind_Ok by done.
  assert (1 ≤ length results)%nat by (destruct results; [done | simpl; lia]).
  unfold checked_sub. rewrite decide_True by lia. rewrite bind_Ok.
  destruct (last results) as [x|] eqn:Hlast.
  - rewrite (array_get_Some results _ x).
    + rewrite bind_Ok. unfold revealed_of. rewrite Hlast.
      by destruct results.
    + rewrite last_lookup in Hlast. rewrite <- Hlast. f_equal. lia.
  - apply last_None in Hlast. done.
Qed.

Lemma storeAnalysisResults_spec (analysisId : N) (ring : list euint32)
    (score : euint32) s :
  storeAnalysisResults analysisId ring score s
  = Ok (emit (AnalysisCompleted analysisId)
          (set_results
             (<[analysisId := {| encryptedRingMembers := ring;
                                 encryptedRiskScore := score;
                                 isComplete := true |}]> (analysisResults s))
             (<[analysisId := unrevealed]> (decryptedResults s)) s)).
Proof. reflexivity. Qed.

(** ** Histories: what one call can do to each part of the storage *)

Lemma run_snoc (cs : list Call) (c : Call) s :
  run (cs ++ [c]) s = exec (run cs s) c.
Proof. unfold run. by rewrite foldl_app. Qed.

Lemma run_cons (cs : list Call) (c : Call) s :
  run (c :: cs) s = run cs (exec s c).
Proof. reflexivity. Qed.

Lemma reachable_exec s (c : Call) : reachable s → reachable (exec s c).
Proof. intros [cs ->]. exists (cs ++ [c]). by rewrite run_snoc. Qed.

Lemma reachable_ind (P : State → Prop) :
  P deployed → (∀ s c, reachable s → P s → P (exec s c)) →
  ∀ s, reachable s → P s.
Proof.
  intros H0 Hstep s [cs ->].
  induction cs as [|c cs IH] using rev_ind; [done|].
  rewrite run_snoc. apply Hstep; [by exists cs | done].
Qed.

(** The matrix is written by [initializeAdjacencyMatrix] and
    [addEncryptedEdge] only, and both keep the invariant. *)
Lemma matrix_wf_exec s (c : Call) : matrix_wf s → matrix_wf (exec s c).
Proof.
  intros Hwf. unfold exec.
  destruct c as [t cp se am ts now|size|from to w|now|a ring sc|a r|r cl pr];
    simpl call.
  - unfold submitEncryptedTransaction.
    by destruct (checked_add _ _).
  - pose proof alloc_limit_fits.
    destruct (decide (size * size < alloc_limit)) as [Hfit|Hbig].
    + rewrite initializeAdjacencyMatrix_Ok by done.
      split; simpl; [rewrite length_replicate; lia | lia].
    + destruct (decide (size * size < uint256_limit)).
      * by rewrite initializeAdjacencyMatrix_too_large by lia.
      * by rewrite initializeAdjacencyMatrix_overflow by lia.
  - destruct (decide (from < matrixSize s ∧ to < matrixSize s)) as [[Hf Ht]|Hno].
    + rewrite addEncryptedEdge_Ok by done. by apply matrix_wf_set_cell.
    + by rewrite addEncryptedEdge_oob.
  - done.
  - done.
  - rewrite requestResultDecryption_spec. cbv zeta.
    destruct (isComplete _); [|done]. by destruct (isRevealed _).
  - rewrite decryptAnalysisResult_spec. cbv zeta.
    destruct (bool_decide _); [done|].
    destruct (isRevealed _); [done|].
    destruct (checkSignatures _ _ _); [|done].
    by destruct (abi_decode_uint32s cl) as [[|x results]|].
Qed.

Lemma matrix_wf_deployed : matrix_wf deployed.
Proof. split; [done | by vm_compute]. Qed.

Lemma reachable_matrix_wf s : reachable s → matrix_wf s.
Proof.
  apply reachable_ind; [apply matrix_wf_deployed|].
  intros s' c _. apply matrix_wf_exec.
Qed.

(** The Decrypted Results are written by [storeAnalysisResults], which
    installs an unrevealed record, and by a callback that passes its guards,
    which installs a revealed one under a nonzero, so far unrevealed id. *)
Lemma exec_decryptedResults s (c : Call) :
  decryptedResults (exec s c) = decryptedResults s
  ∨ (∃ a ring sc, c = Store a ring sc
       ∧ decryptedResults (exec s c) = <[a := unrevealed]> (decryptedResults s))
  ∨ (∃ t cl pr results, c = Callback t cl pr
       ∧ requestToAnalysisId_at s t ≠ 0
       ∧ isRevealed (decryptedResults_at s (requestToAnalysisId_at s t)) = false
       ∧ decryptedResults (exec s c)
         = <[requestToAnalysisId_at s t := revealed_of results]>
             (decryptedResults s)).
Proof.
  unfold exec.
  destruct c as [t cp se am ts now|size|from to w|now|a ring sc|a r|r cl pr];
    simpl call.
  - left. unfold submitEncryptedTransaction. by destruct (checked_add _ _).
  - left. unfold initializeAdjacencyMatrix.
    destruct (checked_mul _ _); [|done]. rewrite bind_Ok.
    destruct (allocate _ _); [|done]. rewrite bind_Ok.
    by destruct (for_range _ _ _ _).
  - left. unfold addEncryptedEdge.
    destruct (require _ _); [|done]. rewrite bind_Ok.
    destruct (checked_mul _ _); [|done]. rewrite bind_Ok.
    destruct (checked_add _ _); [|done]. rewrite bind_Ok.
    by destruct (array_set _ _ _).
  - by left.
  - right; left. by exists a, ring, sc.
  - left. rewrite requestResultDecryption_spec. cbv zeta.
    destruct (isComplete _); [|done]. by destruct (isRevealed _).
  - rewrite decryptAnalysisResult_spec. cbv zeta.
    destruct (bool_decide _) eqn:Hz; [by left|].
    destruct (isRevealed _) eqn:Hrev; [by left|].
    destruct (checkSignatures _ _ _); [|by left].
    destruct (abi_decode_uint32s cl) as [[|x results]|]; [by left| |by left].
    right; right. exists r, cl, pr, (x :: results).
    by apply bool_decide_eq_false in Hz.
Qed.

(** The token map is written by [requestResultDecryption] only. *)
Lemma exec_requestToAnalysisId s (c : Call) :
  requestToAnalysisId (exec s c) = requestToAnalysisId s
  ∨ (∃ a tok, c = RequestReveal a tok
       ∧ requestToAnalysisId (exec s c) = <[tok := a]> (requestToAnalysisId s)).
Proof.
  unfold exec.
  destruct c as [t cp se am ts now|size|from to w|now|a ring sc|a r|r cl pr];
    simpl call.
  - left. unfold submitEncryptedTransaction. by destruct (checked_add _ _).
  - left. unfold initializeAdjacencyMatrix.
    destruct (checked_mul _ _); [|done]. rewrite bind_Ok.
    destruct (allocate _ _); [|done]. rewrite bind_Ok.
    by destruct (for_range _ _ _ _).
  - left. unfold addEncryptedEdge.
    destruct (require _ _); [|done]. rewrite bind_Ok.
    destruct (checked_mul _ _); [|done]. rewrite bind_Ok.
    destruct (checked_add _ _); [|done]. rewrite bind_Ok.
    by destruct (array_set _ _ _).
  - by left.
  - by left.
  - rewrite requestResultDecryption_spec. cbv zeta.
    destruct (isComplete _); [|by left].
    destruct (isRevealed _); [by left|].
    right. by exists a, r.
  - left. rewrite decryptAnalysisResult_spec. cbv zeta.
    destruct (bool_decide _); [done|].
    destruct (isRevealed _); [done|].
    destruct (checkSignatures _ _ _); [|done].
    by destruct (abi_decode_uint32s cl) as [[|x results]|].
Qed.

Lemma decryptedResults_at_eq s s' (k : N) :
  decryptedResults s' = decryptedResults s →
  decryptedResults_at s' k = decryptedResults_at s k.
Proof. unfold decryptedResults_at. by intros ->. Qed.

Lemma decryptedResults_at_insert s s' (k a : N) (d : DecryptedResult) :
  decryptedResults s' = <[a := d]> (decryptedResults s) →
  decryptedResults_at s' k
  = if decide (a = k) then d else decryptedResults_at s k.
Proof.
  unfold decryptedResults_at. intros ->.
  rewrite lookup_insert. by destruct (decide (a = k)).
Qed.

Lemma requestToAnalysisId_at_eq s s' (t : N) :
  requestToAnalysisId s' = requestToAnalysisId s →
  requestToAnalysisId_at s' t = requestToAnalysisId_at s t.
Proof. unfold requestToAnalysisId_at. by intros ->. Qed.

(** A revealed result stays revealed across any call that is not a store
    under its id. *)
Lemma revealed_exec s (c : Call) (k : N) :
  isRevealed (decryptedResults_at s k) = true →
  stores_on k c = false →
  decryptedResults_at (exec s c) k = decryptedResults_at s k.
Proof.
  intros Hrev Hc.
  destruct (exec_decryptedResults s c)
    as [Heq|[(a & ring & sc & -> & Heq)|(t & cl & pr & res & -> & _ & Hun & Heq)]].
  - by apply decryptedResults_at_eq.
  - rewrite (decryptedResults_at_insert _ _ _ _ _ Heq).
    simpl in Hc. apply bool_decide_eq_false in Hc.
    by rewrite decide_False.
  - rewrite (decryptedResults_at_insert _ _ _ _ _ Heq).
    destruct (decide _) as [<-|]; [congruence | done].
Qed.

Lemma revealed_run s (cs : list Call) (k : N) :
  isRevealed (decryptedResults_at s k) = true →
  Forall (fun c => stores_on k c = false) cs →
  decryptedResults_at (run cs s) k = decryptedResults_at s k.
Proof.
  intros Hrev Hcs. revert s Hrev.
  induction Hcs as [|c cs Hc _ IH]; intros s Hrev; [done|].
  rewrite run_cons.
  pose proof (revealed_exec s c k Hrev Hc) as Hstep.
  rewrite IH; [done | by rewrite Hstep].
Qed.

(** A token keeps its analysis id across any call that does not record the
    same token again. *)
Lemma token_exec s (c : Call) (t : N) :
  issues_token t c = false →
  requestToAnalysisId_at (exec s c) t = requestToAnalysisId_at s t.
Proof.
  intros Hc.
  destruct (exec_requestToAnalysisId s c) as [Heq|(a & tok & -> & Heq)].
  - by apply requestToAnalysisId_at_eq.
  - unfold requestToAnalysisId_at. rewrite Heq.
    simpl in Hc. apply bool_decide_eq_false in Hc.
    by rewrite lookup_insert_ne.
Qed.

Lemma token_run s (cs : list Call) (t : N) :
  Forall (fun c => issues_token t c = false) cs →
  requestToAnalysisId_at (run cs s) t = requestToAnalysisId_at s t.
Proof.
  intros Hcs. revert s.
  induction Hcs as [|c cs Hc _ IH]; intros s; [done|].
  by rewrite run_cons, IH, token_exec.
Qed.

(** No call reveals the result stored under id 0. *)
Lemma zero_unrevealed_exec s (c : Call) :
  isRevealed (decryptedResults_at s 0) = false →
  isRevealed (decryptedResults_at (exec s c) 0) = false.
Proof.
  intros Hun.
  destruct (exec_decryptedResults s c)
    as [Heq|[(a & ring & sc & -> & Heq)|(t & cl & pr & res & -> & Hnz & _ & Heq)]].
  - by rewrite (decryptedResults_at_eq _ _ _ Heq).
  - rewrite (decryptedResults_at_insert _ _ _ _ _ Heq).
    by destruct (decide _).
  - rewrite (decryptedResults_at_insert _ _ _ _ _ Heq).
    by rewrite decide_False.
Qed.

End Functions.

(** ** The reveal protocol and the result store *)

Section Protocol.
Context `{F : FHEVM}.

(** C1, as the contract has it: once the Decrypted Result of an analysis id is
    revealed, it stays revealed, with its members and score, across every
    sequence of calls that contains no [storeAnalysisResults] for that id;
    in particular [requestResultDecryption] and [decryptAnalysisResult] never
    clear the flag.  A [storeAnalysisResults] for the id replaces it by the
    empty Decrypted Result, with no members, score 0 and the flag false. *)
Theorem revealed_until_stored_again (s : State) (analysisId : N)
    (cs : list Call) :
  isRevealed (decryptedResults_at s analysisId) = true →
  (Forall (fun c => stores_on analysisId c = false) cs →
   isRevealed (decryptedResults_at (run cs s) analysisId) = true
   ∧ decryptedResults_at (run cs s) analysisId
     = decryptedResults_at s analysisId)
  ∧ (∀ ring score,
       decryptedResults_at (exec s (Store analysisId ring score)) analysisId
       = {| ringMembers := []; riskScore := 0; isRevealed := false |}).
Proof.
  intros Hrev. split.
  - intros Hcs. by rewrite revealed_run.
  - intros ring score.
    unfold exec, decryptedResults_at. simpl.
    by rewrite lookup_insert_eq.
Qed.

(** C2, as the contract has it: a successful callback leaves the token map as
    it was, so the token still maps to its analysis id.  A later delivery of
    the same token is refused by the revealed guard, with [AlreadyRevealed],
    and changes nothing, whatever calls come in between, as long as none of
    them stores the id again or records the token again. *)
Theorem replay_refused_as_revealed (s s' : State) (token : N)
    (cleartexts proof : list Byte.byte) :
  decryptAnalysisResult token cleartexts proof s = Ok s' →
  requestToAnalysisId s' = requestToAnalysisId s
  ∧ requestToAnalysisId_at s' token ≠ 0
  ∧ ∀ cs cleartexts' proof',
      Forall (fun c => stores_on (requestToAnalysisId_at s token) c = false
                       ∧ issues_token token c = false) cs →
      decryptAnalysisResult token cleartexts' proof' (run cs s')
      = Revert AlreadyRevealed
      ∧ exec (run cs s') (Callback token cleartexts' proof') = run cs s'.
Proof.
  rewrite decryptAnalysisResult_spec. cbv zeta. intros Hok.
  destruct (bool_decide _) eqn:Hz; [done|].
  apply bool_decide_eq_false in Hz.
  destruct (isRevealed _) eqn:Hun; [done|].
  destruct (checkSignatures _ _ _); [|done].
  destruct (abi_decode_uint32s cleartexts) as [[|x results]|]; [done| |done].
  injection Hok as <-. simpl.
  split; [done|]. split; [done|].
  intros cs cleartexts' proof' Hcs.
  set (s1 := emit _ _).
  set (k := requestToAnalysisId_at s token) in *.
  assert (Hrev : decryptedResults_at s1 k = revealed_of (x :: results)).
  { unfold decryptedResults_at. simpl. by rewrite lookup_insert_eq. }
  assert (Htok : requestToAnalysisId_at (run cs s1) token = k).
  { rewrite token_run; [done|]. eapply Forall_impl; [exact Hcs|]. by intros c []. }
  assert (Hstill : isRevealed (decryptedResults_at (run cs s1) k) = true).
  { rewrite revealed_run; [by rewrite Hrev| by rewrite Hrev |].
    eapply Forall_impl; [exact Hcs|]. by intros c []. }
  assert (Hrefused : decryptAnalysisResult token cleartexts' proof' (run cs s1)
                     = Revert AlreadyRevealed).
  { rewrite decryptAnalysisResult_spec. cbv zeta.
    rewrite Htok, bool_decide_eq_false_2 by done. by rewrite Hstill. }
  split; [done|]. unfold exec. simpl call. by rewrite Hrefused.
Qed.

(** C3, as the contract has it: [requestResultDecryption] succeeds exactly
    when the analysis is complete and not revealed, whether or not a request
    for the id is outstanding; its only failures are [AnalysisNotComplete]
    and [AlreadyRevealed].  Two requests in a row both succeed and leave two
    tokens mapped to the same id. *)
Theorem second_request_accepted (s : State) (analysisId r1 r2 : N) :
  isComplete (analysisResults_at s analysisId) = true →
  isRevealed (decryptedResults_at s analysisId) = false →
  r1 ≠ r2 →
  (∃ s1 s2,
     requestResultDecryption analysisId r1 s = Ok s1
     ∧ requestToAnalysisId_at s1 r1 = analysisId
     ∧ requestResultDecryption analysisId r2 s1 = Ok s2
     ∧ requestToAnalysisId_at s2 r1 = analysisId
     ∧ requestToAnalysisId_at s2 r2 = analysisId)
  ∧ (∀ st a r e,
       requestResultDecryption a r st = Revert e →
       (e = AnalysisNotComplete ∧ isComplete (analysisResults_at st a) = false)
       ∨ (e = AlreadyRevealed
          ∧ isRevealed (decryptedResults_at st a) = true)).
Proof.
  intros Hc Hun Hne. split.
  - eexists _, _.
    rewrite requestResultDecryption_spec. cbv zeta. rewrite Hc, Hun.
    split; [reflexivity|].
    split; [unfold requestToAnalysisId_at; simpl; by rewrite lookup_insert_eq|].
    rewrite requestResultDecryption_spec. cbv zeta.
    change (isComplete (analysisResults_at s analysisId)
            = true) in Hc.
    unfold analysisResults_at, decryptedResults_at in *. simpl.
    rewrite Hc, Hun.
    split; [reflexivity|].
    unfold requestToAnalysisId_at. simpl.
    rewrite lookup_insert_ne, !lookup_insert_eq by done. done.
  - clear. intros st a r e. rewrite requestResultDecryption_spec. cbv zeta.
    destruct (isComplete (analysisResults_at st a));
      [|intros He; simplify_eq; by left].
    destruct (isRevealed (decryptedResults_at st a));
      [intros He; simplify_eq; by right | done].
Qed.

(** C4, as the contract has it: [storeAnalysisResults] has no failure.  Stored
    again under an id that already has a complete result, it replaces the
    encrypted result with the new bundle and the Decrypted Result with an
    empty, unrevealed one; the results of every other id are left alone. *)
Theorem store_overwrites (s : State) (analysisId : N) (ring : list euint32)
    (score : euint32) :
  ∃ s',
    storeAnalysisResults analysisId ring score s = Ok s'
    ∧ analysisResults_at s' analysisId
      = {| encryptedRingMembers := ring; encryptedRiskScore := score;
           isComplete := true |}
    ∧ decryptedResults_at s' analysisId
      = {| ringMembers := []; riskScore := 0; isRevealed := false |}
    ∧ ∀ k, k ≠ analysisId →
        analysisResults_at s' k = analysisResults_at s k
        ∧ decryptedResults_at s' k = decryptedResults_at s k.
Proof.
  eexists. split; [apply storeAnalysisResults_spec|].
  unfold analysisResults_at, decryptedResults_at. simpl.
  rewrite !lookup_insert_eq. split; [done|]. split; [done|].
  intros k Hk. by rewrite !lookup_insert_ne.
Qed.

(** C9: [requestResultDecryption] hands the oracle the ring-member
    ciphertexts in order followed by the risk-score ciphertext, and records
    the token; a callback that succeeds on a plaintext list [p] of length [n]
    has [n >= 1] and leaves the Decrypted Result of the token's id with
    members [p[0..n-2]], score [p[n-1]] and the flag set. *)
Theorem reveal_is_positional :
  (∀ (s : State) (analysisId reqId : N),
     isComplete (analysisResults_at s analysisId) = true →
     isRevealed (decryptedResults_at s analysisId) = false →
     ∃ s',
       requestResultDecryption analysisId reqId s = Ok s'
       ∧ events s'
         = events s
           ++ [DecryptionRequested reqId
                 ((toBytes32 <$>
                     encryptedRingMembers (analysisResults_at s analysisId))
                  ++ [toBytes32
                        (encryptedRiskScore (analysisResults_at s analysisId))])]
       ∧ requestToAnalysisId_at s' reqId = analysisId)
  ∧ (∀ (s s' : State) (token : N) (cleartexts proof : list Byte.byte),
       decryptAnalysisResult token cleartexts proof s = Ok s' →
       ∃ p,
         abi_decode_uint32s cleartexts = Some p
         ∧ (1 ≤ length p)%nat
         ∧ let d := decryptedResults_at s' (requestToAnalysisId_at s token) in
           ringMembers d = take (length p - 1) p
           ∧ p !! (length p - 1)%nat = Some (riskScore d)
           ∧ isRevealed d = true).
Proof.
  split.
  - intros s analysisId reqId Hc Hun. eexists.
    rewrite requestResultDecryption_spec. cbv zeta. rewrite Hc, Hun.
    split; [reflexivity|]. split; [done|].
    unfold requestToAnalysisId_at. simpl. by rewrite lookup_insert_eq.
  - intros s s' token cleartexts proof.
    rewrite decryptAnalysisResult_spec. cbv zeta. intros Hok.
    destruct (bool_decide _); [done|].
    destruct (isRevealed _); [done|].
    destruct (checkSignatures _ _ _); [|done].
    destruct (abi_decode_uint32s cleartexts) as [[|x results]|];
      [done| |done].
    injection Hok as <-. exists (x :: results).
    split; [done|]. split; [simpl; lia|].
    unfold decryptedResults_at. simpl decryptedResults.
    rewrite lookup_insert_eq. cbv zeta. simpl default.
    split; [done|]. split; [|done].
    unfold revealed_of, riskScore. rewrite last_lookup.
    replace (length (x :: results) - 1)%nat
      with (pred (length (x :: results))) by (simpl; lia).
    destruct (lookup_lt_is_Some_2 (x :: results)
                (pred (length (x :: results)))) as [y Hy]; [simpl; lia|].
    by rewrite Hy.
Qed.

(** C10: the result stored under analysis id 0 is never revealed.  In every
    reachable state its flag is false; [storeAnalysisResults] and
    [requestResultDecryption] accept id 0 and record the token, and every
    callback whose token maps to 0, this one included, is refused with
    [InvalidRequest] like an unknown token. *)
Theorem analysis_zero_never_revealed (s : State) :
  reachable s →
  isRevealed (decryptedResults_at s 0) = false
  ∧ (∀ ring score reqId, ∃ s1 s2,
       storeAnalysisResults 0 ring score s = Ok s1
       ∧ requestResultDecryption 0 reqId s1 = Ok s2
       ∧ requestToAnalysisId s2 !! reqId = Some 0
       ∧ ∀ cleartexts proof,
           decryptAnalysisResult reqId cleartexts proof s2
           = Revert InvalidRequest)
  ∧ (∀ token cleartexts proof,
       requestToAnalysisId_at s token = 0 →
       decryptAnalysisResult token cleartexts proof s = Revert InvalidRequest).
Proof.
  intros Hs. split; [|split].
  - revert s Hs. apply reachable_ind; [done|].
    intros s c _. apply zero_unrevealed_exec.
  - intros ring score reqId. eexists _, _.
    split; [apply storeAnalysisResults_spec|].
    rewrite requestResultDecryption_spec. cbv zeta.
    unfold analysisResults_at, decryptedResults_at. simpl.
    rewrite !lookup_insert_eq. simpl.
    split; [reflexivity|].
    split; [simpl; by rewrite lookup_insert_eq|].
    intros cleartexts proof. rewrite decryptAnalysisResult_spec. cbv zeta.
    unfold requestToAnalysisId_at. simpl. by rewrite lookup_insert_eq.
  - intros token cleartexts proof Hz.
    rewrite decryptAnalysisResult_spec. cbv zeta.
    by rewrite Hz.
Qed.

End Protocol.

(** ** The adjacency matrix *)

Section Matrix.
Context `{F : FHEVM}.

(** C7, as the contract has it: [initializeAdjacencyMatrix] has no size
    guard.  For every size whose square is at most 2^64 - 1, zero included,
    it succeeds, sets [matrixSize] to the size and allocates exactly
    [size * size] cells, each of them [FHE.asEuint32(0)]; for size 0 that is
    the empty matrix.  For every larger size it reverts: with the allocation
    panic 0x41 when the square still fits a uint256, with the arithmetic
    panic 0x11 when the square overflows. *)
Theorem initialize_allocates_zero_cells (size : N) (s : State) :
  (size * size < alloc_limit →
   ∃ s',
     initializeAdjacencyMatrix size s = Ok s'
     ∧ matrixSize s' = size
     ∧ N.of_nat (length (encryptedAdjacencyMatrix s')) = size * size
     ∧ (∀ k c, encryptedAdjacencyMatrix s' !! k = Some c → c = asEuint32 0)
     ∧ (size = 0 → encryptedAdjacencyMatrix s' = []))
  ∧ (alloc_limit ≤ size * size → size * size < uint256_limit →
     initializeAdjacencyMatrix size s = Revert (Panic AllocationTooLarge))
  ∧ (uint256_limit ≤ size * size →
     initializeAdjacencyMatrix size s = Revert (Panic ArithmeticOverflow)).
Proof.
  split; [|split].
  - intros Hfit. eexists. split; [by apply initializeAdjacencyMatrix_Ok|].
    simpl. split; [done|].
    split; [rewrite length_replicate; lia|].
    split.
    + intros k c Hk. by apply lookup_replicate in Hk as [-> _].
    + by intros ->.
  - apply initializeAdjacencyMatrix_too_large.
  - apply initializeAdjacencyMatrix_overflow.
Qed.

(** C8: in every reachable state, for [from] and [to] below [matrixSize],
    [addEncryptedEdge] succeeds and [getAdjacencyElement] then returns the
    weight just set, also when the cell is set a second time (the second
    weight replaces the first); when [from] or [to] is not below
    [matrixSize], both functions fail with [IndexOutOfRange]. *)
Theorem edge_set_then_get (s : State) (from to : N) (weight : euint32) :
  reachable s →
  (from < matrixSize s → to < matrixSize s →
   ∃ s1,
     addEncryptedEdge from to weight s = Ok s1
     ∧ getAdjacencyElement from to s1 = Ok weight
     ∧ ∀ weight2, ∃ s2,
         addEncryptedEdge from to weight2 s1 = Ok s2
         ∧ getAdjacencyElement from to s2 = Ok weight2)
  ∧ (matrixSize s ≤ from ∨ matrixSize s ≤ to →
     addEncryptedEdge from to weight s = Revert IndexOutOfRange
     ∧ getAdjacencyElement from to s = Revert IndexOutOfRange).
Proof.
  intros Hs. apply reachable_matrix_wf in Hs as Hwf. split.
  - intros Hf Ht.
    assert (Hset : ∀ st w, matrix_wf st → matrixSize st = matrixSize s →
              ∃ st', addEncryptedEdge from to w st = Ok st'
                     ∧ getAdjacencyElement from to st' = Ok w
                     ∧ matrix_wf st' ∧ matrixSize st' = matrixSize s).
    { intros st w Hst Hsz. rewrite <- Hsz in Hf, Ht.
      destruct (cell_in_range st from to) as [Hin _]; [done..|].
      eexists. split; [by apply addEncryptedEdge_Ok|].
      split; [|split; [by apply matrix_wf_set_cell | done]].
      apply getAdjacencyElement_lookup;
        [by apply matrix_wf_set_cell | done | done |].
      simpl. apply list_lookup_insert_eq. lia. }
    destruct (Hset s weight Hwf eq_refl) as (s1 & Hadd & Hget & Hwf1 & Hsz1).
    exists s1. split; [done|]. split; [done|].
    intros weight2.
    destruct (Hset s1 weight2 Hwf1 Hsz1) as (s2 & Hadd2 & Hget2 & _).
    by exists s2.
  - intros Hout.
    assert (¬ (from < matrixSize s ∧ to < matrixSize s)) by lia.
    by rewrite addEncryptedEdge_oob, getAdjacencyElement_oob.
Qed.

End Matrix.

(** ** The traversal *)

Section Loops.
Context {S : Type}.
Implicit Types (body : N → S → result S).

(** The ghost counter agrees with the loop: a loop that finishes ran all its
    rounds, a loop that reverts ran fewer. *)
Lemma for_range_rounds_Ok body (start : N) (count : nat) (s s' : S) :
  for_range start count body s = Ok s' →
  for_range_rounds start count body s = count.
Proof.
  revert start s. induction count as [|c IH]; intros start s; simpl; [done|].
  destruct (body start s) as [s1|e]; [|done].
  rewrite bind_Ok. intros Hok. by rewrite (IH _ _ Hok).
Qed.

Lemma for_range_rounds_Revert body (start : N) (count : nat) (s : S)
    (e : Error) :
  for_range start count body s = Revert e →
  (for_range_rounds start count body s < count)%nat.
Proof.
  revert start s. induction count as [|c IH]; intros start s; simpl; [done|].
  destruct (body start s) as [s1|e1]; [|lia].
  rewrite bind_Ok. intros Hrev. specialize (IH _ _ Hrev). lia.
Qed.

End Loops.

Section Traversal.
Context `{F : FHEVM}.
Implicit Types (l : BfsLocals) (s : State).

Lemma array_set_Ok_length {A} (a a' : list A) (i : N) (v : A) :
  array_set a i v = Ok a' → length a' = length a.
Proof.
  unfold array_set. destruct (decide _); [|done].
  intros [= <-]. apply length_insert.
Qed.

Lemma array_set_Revert {A} (a : list A) (i : N) (v : A) (e : Error) :
  array_set a i v = Revert e → e = Panic ArrayOutOfBounds.
Proof. unfold array_set. destruct (decide _); [done|]. by intros [= <-]. Qed.

Lemma array_get_Revert {A} (a : list A) (i : N) (e : Error) :
  array_get a i = Revert e → e = Panic ArrayOutOfBounds.
Proof. unfold array_get. destruct (_ !! _); [done|]. by intros [= <-]. Qed.

Lemma array_get_in {A} (a : list A) (i : N) :
  i < N.of_nat (length a) → ∃ x, array_get a i = Ok x.
Proof.
  intros Hi. destruct (lookup_lt_is_Some_2 a (N.to_nat i)) as [x Hx]; [lia|].
  exists x. by apply array_get_Some.
Qed.

(** The first loop. *)
Lemma bfs_init_loop (c k : nat) l :
  (k + c ≤ length (visited l))%nat → (k + c ≤ length (queue l))%nat →
  (k + c ≤ length (bfs_result l))%nat →
  for_range (N.of_nat k) c bfs_init l
  = Ok {| visited := take k (visited l) ++ replicate c (asEuint32 0)
                     ++ drop (k + c) (visited l);
          queue := take k (queue l) ++ replicate c (asEuint32 0)
                   ++ drop (k + c) (queue l);
          bfs_result := take k (bfs_result l) ++ replicate c (asEuint32 0)
                        ++ drop (k + c) (bfs_result l);
          current := current l; index := index l |}.
Proof.
  revert k l. induction c as [|c IH]; intros k l Hv Hq Hr; simpl.
  - rewrite Nat.add_0_r, !take_drop. by destruct l.
  - assert (bfs_init (N.of_nat k) l
            = Ok {| visited := <[k := asEuint32 0]> (visited l);
                    queue := <[k := asEuint32 0]> (queue l);
                    bfs_result := <[k := asEuint32 0]> (bfs_result l);
                    current := current l; index := index l |}) as ->.
    { unfold bfs_init. rewrite !array_set_in by lia.
      by rewrite !bind_Ok, Nat2N.id. }
    rewrite bind_Ok, <- Nat2N.inj_succ.
    rewrite IH by (simpl; rewrite length_insert; lia). simpl.
    rewrite !take_succ_insert by lia.
    rewrite !drop_insert_lt by lia.
    rewrite <- !(assoc_L (++)). simpl.
    by rewrite Nat.add_succ_r.
Qed.

Lemma bfs_setup_too_large (startNode : euint32) s :
  alloc_limit ≤ matrixSize s →
  bfs_setup startNode s = Revert (Panic AllocationTooLarge).
Proof. intros Hbig. unfold bfs_setup. by rewrite allocate_too_large. Qed.

Lemma bfs_setup_spec (startNode : euint32) s :
  matrixSize s < alloc_limit →
  bfs_setup startNode s
  = Ok {| visited := replicate (N.to_nat (matrixSize s)) (asEuint32 0);
          queue := replicate (N.to_nat (matrixSize s)) (asEuint32 0);
          bfs_result := replicate (N.to_nat (matrixSize s)) (asEuint32 0);
          current := startNode; index := asEuint32 0 |}.
Proof.
  intros Hfit. unfold bfs_setup.
  rewrite !allocate_Ok, !bind_Ok by done.
  pose proof (bfs_init_loop (N.to_nat (matrixSize s)) 0) as Hloop.
  change (N.of_nat 0) with 0 in Hloop.
  rewrite Hloop by (simpl; rewrite new_array_length; lia).
  simpl. rewrite !drop_ge by (rewrite new_array_length; lia).
  by rewrite !app_nil_r.
Qed.

(** One round: it reverts only with an out-of-range panic, which it does as
    soon as a subscript is outside its array; otherwise the arrays keep
    their lengths and both cursors advance by an encrypted one. *)
Lemma bfs_round_inv (i : N) l l' :
  bfs_round i l = Ok l' →
  length (visited l') = length (visited l)
  ∧ length (bfs_result l') = length (bfs_result l)
  ∧ current l' = fhe_add (current l) (asEuint32 1)
  ∧ index l' = fhe_add (index l) (asEuint32 1).
Proof.
  unfold bfs_round.
  destruct (array_get (visited l) _) as [v|]; [|done]. rewrite !bind_Ok.
  destruct (array_set (visited l) _ _) as [vis|] eqn:Hvis; [|done].
  rewrite bind_Ok.
  destruct (array_get (bfs_result l) _) as [r|]; [|done]. rewrite bind_Ok.
  destruct (array_set (bfs_result l) _ _) as [res|] eqn:Hres; [|done].
  rewrite bind_Ok. intros [= <-]. simpl.
  apply array_set_Ok_length in Hvis, Hres. done.
Qed.

Lemma bfs_round_Ok (i : N) l :
  visited_subscript l < N.of_nat (length (visited l)) →
  result_subscript l < N.of_nat (length (bfs_result l)) →
  ∃ l', bfs_round i l = Ok l'.
Proof.
  intros Hv Hr. unfold bfs_round.
  destruct (array_get_in (visited l) _ Hv) as [v ->].
  destruct (array_get_in (bfs_result l) _ Hr) as [r ->].
  rewrite !bind_Ok. cbv beta. rewrite array_set_in by done.
  rewrite !bind_Ok. cbv beta. rewrite array_set_in by done.
  rewrite bind_Ok. by eexists.
Qed.

Lemma bfs_round_oob (i : N) l :
  N.of_nat (length (visited l)) ≤ visited_subscript l →
  bfs_round i l = Revert (Panic ArrayOutOfBounds).
Proof.
  intros Hv. unfold bfs_round.
  rewrite (array_get_oob (visited l)) by done. reflexivity.
Qed.

Lemma bfs_round_Revert (i : N) l (e : Error) :
  bfs_round i l = Revert e → e = Panic ArrayOutOfBounds.
Proof.
  unfold bfs_round.
  destruct (array_get (visited l) _) as [v|] eqn:E1;
    [|intros [= <-]; by apply array_get_Revert in E1].
  rewrite !bind_Ok.
  destruct (array_set (visited l) _ _) as [vis|] eqn:E2;
    [|intros [= <-]; by apply array_set_Revert in E2].
  rewrite bind_Ok.
  destruct (array_get (bfs_result l) _) as [r|] eqn:E3;
    [|intros [= <-]; by apply array_get_Revert in E3].
  rewrite bind_Ok.
  destruct (array_set (bfs_result l) _ _) as [res|] eqn:E4;
    [done|intros [= <-]; by apply array_set_Revert in E4].
Qed.

Lemma bfs_rounds_Revert (c : nat) (start : N) l (e : Error) :
  for_range start c bfs_round l = Revert e → e = Panic ArrayOutOfBounds.
Proof.
  revert start l. induction c as [|c IH]; intros start l; simpl; [done|].
  destruct (bfs_round start l) as [l1|e1] eqn:E.
  - rewrite bind_Ok. apply IH.
  - intros [= <-]. by apply bfs_round_Revert in E.
Qed.

(** Advancing a cursor adds one to its plaintext, modulo 2^32. *)
Lemma decrypt_advance (c : euint32) (a k : N) :
  decrypt c = (a + k) `mod` uint32_limit →
  decrypt (fhe_add c (asEuint32 1)) = (a + N.succ k) `mod` uint32_limit.
Proof.
  intros Hc. rewrite decrypt_add, decrypt_asEuint32, Hc.
  rewrite (N.mod_small 1) by done.
  rewrite N.Div0.add_mod_idemp_l. f_equal. lia.
Qed.

Lemma decrypt_advance_one (c : euint32) :
  decrypt (fhe_add c (asEuint32 1)) = (decrypt c + 1) `mod` uint32_limit.
Proof.
  rewrite decrypt_add, decrypt_asEuint32.
  by rewrite (N.mod_small 1) by done.
Qed.

(** The subscripts of round [start + j] are the plaintexts of the two cursors
    on entry, moved on by [j]. *)
Lemma bfs_log_lookup (c : nat) (start : N) l (j : nat) (acc : Access) :
  for_range_log bfs_access start c bfs_round l !! j = Some acc →
  round acc = start + N.of_nat j
  ∧ visited_at acc = (decrypt (current l) + N.of_nat j) `mod` uint32_limit
  ∧ result_at acc = (decrypt (index l) + N.of_nat j) `mod` uint32_limit.
Proof.
  revert start l j. induction c as [|c IH]; intros start l j; simpl; [done|].
  destruct j as [|j]; simpl.
  - intros [= <-]. simpl. unfold visited_subscript, result_subscript.
    rewrite !N.add_0_r, !N.mod_small by apply decrypt_range. done.
  - destruct (bfs_round start l) as [l1|e] eqn:E; [|done].
    intros Hj. apply IH in Hj as (Hr & Hv & Hi).
    apply bfs_round_inv in E as (_ & _ & Hcur & Hidx).
    rewrite Hcur, Hidx, !decrypt_advance_one in *.
    rewrite N.Div0.add_mod_idemp_l in Hv, Hi.
    split; [lia|]. split; [rewrite Hv | rewrite Hi]; f_equal; lia.
Qed.

(** In every round of [encryptedBFS] the [visited] array is subscripted with
    the decrypted start node plus the round counter, and the [result] array
    with a decrypted counter. *)
Lemma encryptedBFS_accesses_lookup (startNode : euint32) s (j : nat)
    (acc : Access) :
  encryptedBFS_accesses startNode s !! j = Some acc →
  round acc = N.of_nat j
  ∧ visited_at acc = (decrypt startNode + N.of_nat j) `mod` uint32_limit
  ∧ result_at acc = N.of_nat j `mod` uint32_limit.
Proof.
  unfold encryptedBFS_accesses.
  destruct (decide (matrixSize s < alloc_limit)) as [Hfit|Hbig];
    [|by rewrite bfs_setup_too_large by lia].
  rewrite bfs_setup_spec by done.
  intros Hj. apply bfs_log_lookup in Hj as (Hr & Hv & Hi).
  simpl in Hv, Hi. rewrite decrypt_asEuint32 in Hi.
  rewrite N.Div0.add_mod_idemp_l in Hi.
  split; [lia|]. split; [done|]. rewrite Hi. f_equal.
Qed.

(** With both cursors at the round counter the rounds all succeed. *)
Lemma bfs_rounds_from_zero (n c k : nat) l :
  N.of_nat n ≤ uint32_limit →
  length (visited l) = n → length (bfs_result l) = n →
  decrypt (current l) = (0 + N.of_nat k) `mod` uint32_limit →
  decrypt (index l) = (0 + N.of_nat k) `mod` uint32_limit →
  (k + c ≤ n)%nat →
  ∃ l', for_range (N.of_nat k) c bfs_round l = Ok l'
        ∧ length (bfs_result l') = n.
Proof.
  intros Hn. revert k l.
  induction c as [|c IH]; intros k l Hv Hr Hcur Hidx Hk; simpl.
  - by exists l.
  - destruct (bfs_round_Ok (N.of_nat k) l) as [l1 Hl1].
    { unfold visited_subscript. rewrite Hcur, N.add_0_l, N.mod_small; lia. }
    { unfold result_subscript. rewrite Hidx, N.add_0_l, N.mod_small; lia. }
    rewrite Hl1, bind_Ok.
    apply bfs_round_inv in Hl1 as (Hv1 & Hr1 & Hcur1 & Hidx1).
    rewrite <- Nat2N.inj_succ. apply IH; [lia | lia | | | lia].
    + rewrite Hcur1, Nat2N.inj_succ. by apply decrypt_advance.
    + rewrite Hidx1, Nat2N.inj_succ. by apply decrypt_advance.
Qed.

(** With the start node at [a], the rounds revert if one of them takes the
    [visited] subscript [a + j] outside the array. *)
Lemma bfs_rounds_fault (n : nat) (a : N) (c k : nat) l :
  length (visited l) = n →
  decrypt (current l) = (a + N.of_nat k) `mod` uint32_limit →
  (∃ j, (k ≤ j < k + c)%nat
        ∧ N.of_nat n ≤ (a + N.of_nat j) `mod` uint32_limit) →
  for_range (N.of_nat k) c bfs_round l = Revert (Panic ArrayOutOfBounds).
Proof.
  revert k l. induction c as [|c IH]; intros k l Hv Hcur (j & Hj & Hout);
    simpl; [lia|].
  destruct (bfs_round (N.of_nat k) l) as [l1|e] eqn:E.
  - rewrite bind_Ok, <- Nat2N.inj_succ.
    destruct (decide (j = k)) as [->|Hne].
    + rewrite bfs_round_oob in E; [done|].
      unfold visited_subscript. rewrite Hcur. lia.
    + apply bfs_round_inv in E as (Hv1 & _ & Hcur1 & _).
      apply IH; [lia | |exists j; split; [lia | done]].
      rewrite Hcur1, Nat2N.inj_succ. by apply decrypt_advance.
  - by apply bfs_round_Revert in E as ->.
Qed.

(** [encryptedBFS] reverts with [MatrixNotInitialized] exactly when
    [matrixSize] is 0. *)
Lemma encryptedBFS_uninitialized_iff (startNode : euint32) s :
  encryptedBFS startNode s = Revert MatrixNotInitialized ↔ matrixSize s = 0.
Proof.
  unfold encryptedBFS. split.
  - destruct (decide (0 < matrixSize s)) as [Hpos|]; [|lia].
    rewrite bool_decide_eq_true_2 by done.
    rewrite require_true, bind_Ok.
    destruct (decide (matrixSize s < alloc_limit)) as [Hfit|Hbig];
      [|by rewrite bfs_setup_too_large by lia].
    rewrite bfs_setup_spec, bind_Ok by done.
    destruct (for_range _ _ _ _) as [l|e] eqn:E; [done|].
    apply bfs_rounds_Revert in E as ->. done.
  - intros ->. reflexivity.
Qed.

(** From a start node that decrypts to 0 the traversal runs its
    [matrixSize] rounds and returns [matrixSize] entries. *)
Lemma encryptedBFS_from_zero (startNode : euint32) s :
  0 < matrixSize s → matrixSize s ≤ uint32_limit → decrypt startNode = 0 →
  ∃ res, encryptedBFS startNode s = Ok res
         ∧ length res = N.to_nat (matrixSize s)
         ∧ encryptedBFS_rounds startNode s = N.to_nat (matrixSize s).
Proof.
  intros Hpos Hsmall Hzero.
  destruct (bfs_rounds_from_zero (N.to_nat (matrixSize s))
              (N.to_nat (matrixSize s)) 0
              {| visited := replicate (N.to_nat (matrixSize s)) (asEuint32 0);
                 queue := replicate (N.to_nat (matrixSize s)) (asEuint32 0);
                 bfs_result :=
                   replicate (N.to_nat (matrixSize s)) (asEuint32 0);
                 current := startNode; index := asEuint32 0 |})
    as (l' & Hloop & Hlen); simpl;
    [lia | by rewrite length_replicate | by rewrite length_replicate
    | by rewrite Hzero | by rewrite decrypt_asEuint32 | lia |].
  change (N.of_nat 0) with 0 in Hloop.
  exists (bfs_result l'). unfold encryptedBFS, encryptedBFS_rounds.
  rewrite bool_decide_eq_true_2 by done.
  assert (matrixSize s < alloc_limit)
    by (pose proof uint32_limit_allocates; lia).
  rewrite require_true, bind_Ok, bfs_setup_spec, bind_Ok, Hloop, bind_Ok
    by done.
  split; [done|]. split; [done|].
  by apply for_range_rounds_Ok in Hloop.
Qed.

(** From any other start node it reverts with an out-of-range panic before
    the last round ends. *)
Lemma encryptedBFS_off_zero (startNode : euint32) s :
  0 < matrixSize s → matrixSize s < uint32_limit → decrypt startNode ≠ 0 →
  encryptedBFS startNode s = Revert (Panic ArrayOutOfBounds)
  ∧ (encryptedBFS_rounds startNode s < N.to_nat (matrixSize s))%nat.
Proof.
  intros Hpos Hsmall Hnz.
  pose proof (decrypt_range startNode) as Hrange.
  assert (Hloop : for_range 0 (N.to_nat (matrixSize s)) bfs_round
            {| visited := replicate (N.to_nat (matrixSize s)) (asEuint32 0);
               queue := replicate (N.to_nat (matrixSize s)) (asEuint32 0);
               bfs_result :=
                 replicate (N.to_nat (matrixSize s)) (asEuint32 0);
               current := startNode; index := asEuint32 0 |}
          = Revert (Panic ArrayOutOfBounds)).
  { apply (bfs_rounds_fault (N.to_nat (matrixSize s)) (decrypt startNode)
             (N.to_nat (matrixSize s)) 0); simpl.
    - by rewrite length_replicate.
    - by rewrite N.add_0_r, N.mod_small.
    - destruct (decide (matrixSize s ≤ decrypt startNode)) as [Hge|Hlt].
      + exists 0%nat. split; [lia|].
        rewrite N.add_0_r, N.mod_small; lia.
      + exists (N.to_nat (matrixSize s - decrypt startNode)). split; [lia|].
        replace (decrypt startNode
                 + N.of_nat (N.to_nat (matrixSize s - decrypt startNode)))
          with (matrixSize s) by lia.
        rewrite N.mod_small; lia. }
  unfold encryptedBFS, encryptedBFS_rounds.
  rewrite bool_decide_eq_true_2 by done.
  assert (matrixSize s < alloc_limit)
    by (pose proof uint32_limit_allocates; lia).
  rewrite require_true, bind_Ok, bfs_setup_spec, bind_Ok, Hloop by done.
  split; [done|]. by apply for_range_rounds_Revert in Hloop.
Qed.

End Traversal.

(** ** The contract on concrete inputs *)

Section Concrete.
#[local] Existing Instance plain_FHEVM.

(** C1 fails as stated: after the reveal of analysis 1, a second
    [storeAnalysisResults] for id 1 sets the flag back to false. *)
Lemma store_clears_revealed :
  isRevealed (decryptedResults_at revealed_once 1) = true
  ∧ isRevealed
      (decryptedResults_at (run [Store 1 [11; 12] 13] revealed_once) 1)
    = false.
Proof. split; by vm_compute. Qed.

Lemma revealed_until_stored_again_witness :
  isRevealed (decryptedResults_at revealed_once 1) = true
  ∧ decryptedResults_at
      (run [RequestReveal 1 8; Store 2 [] 0;
            Callback 7 (plain_abi_encode [1; 2]) [Byte.x01]]
         revealed_once) 1
    = {| ringMembers := [5; 9]; riskScore := 7; isRevealed := true |}
  ∧ decryptedResults_at (exec revealed_once (Store 1 [21] 23)) 1
    = {| ringMembers := []; riskScore := 0; isRevealed := false |}.
Proof.
  assert (Hrev : isRevealed (decryptedResults_at revealed_once 1) = true)
    by (by vm_compute).
  split; [exact Hrev|]. split.
  - refine (eq_trans
              (proj2 (proj1 (revealed_until_stored_again revealed_once 1
                               [RequestReveal 1 8; Store 2 [] 0;
                                Callback 7 (plain_abi_encode [1; 2])
                                  [Byte.x01]]
                               Hrev) _)) _);
      [repeat constructor | reflexivity].
  - exact (proj2 (revealed_until_stored_again revealed_once 1 [] Hrev)
             [21] 23).
Defined.

(** C2 fails as stated: the replay of token 7 is refused with
    [AlreadyRevealed], not [InvalidRequest], and the token still maps to
    analysis 1 after the first callback. *)
Lemma replay_not_invalid_request :
  decryptAnalysisResult 7 (plain_abi_encode [5; 9; 7]) [Byte.x01]
    revealed_once = Revert AlreadyRevealed
  ∧ requestToAnalysisId revealed_once !! 7 = Some 1.
Proof. split; [reflexivity | by vm_compute]. Qed.

Lemma replay_refused_as_revealed_witness :
  decryptAnalysisResult 7 (plain_abi_encode [5; 9; 7]) [Byte.x01]
    request_pending = Ok revealed_once
  ∧ decryptAnalysisResult 7 (plain_abi_encode [5; 9; 7]) [Byte.x01]
      (run [RequestReveal 1 8; Store 2 [] 0] revealed_once)
    = Revert AlreadyRevealed.
Proof.
  assert (Hfirst : decryptAnalysisResult 7 (plain_abi_encode [5; 9; 7])
                     [Byte.x01] request_pending = Ok revealed_once)
    by reflexivity.
  split; [exact Hfirst|].
  refine (proj1 (proj2 (proj2 (replay_refused_as_revealed request_pending
                                 revealed_once 7 _ _ Hfirst))
                   [RequestReveal 1 8; Store 2 [] 0]
                   (plain_abi_encode [5; 9; 7]) [Byte.x01] _)).
  repeat constructor.
Defined.

(** Beyond the immediate replay: once analysis 1 is stored again, the
    consumed token 7 is accepted a second time and reveals the replayed
    plaintexts for the new bundle. *)
Lemma stale_token_accepted_after_restore :
  ∃ s',
    decryptAnalysisResult 7 (plain_abi_encode [5; 9; 7]) [Byte.x01]
      (run [Store 1 [21] 23] revealed_once) = Ok s'
    ∧ decryptedResults_at s' 1
      = {| ringMembers := [5; 9]; riskScore := 7; isRevealed := true |}.
Proof. eexists. split; reflexivity. Qed.

(** C3 fails as stated: with the request of token 7 outstanding, a second
    request for analysis 1 is accepted, and both tokens map to 1. *)
Lemma pending_request_not_refused :
  requestToAnalysisId request_pending !! 7 = Some 1
  ∧ ∃ s2,
      requestResultDecryption 1 8 request_pending = Ok s2
      ∧ requestToAnalysisId s2 !! 7 = Some 1
      ∧ requestToAnalysisId s2 !! 8 = Some 1.
Proof.
  split; [by vm_compute|]. eexists.
  split; [reflexivity|]. split; by vm_compute.
Qed.

Lemma second_request_accepted_witness :
  ∃ s1 s2,
    requestResultDecryption 1 8 request_pending = Ok s1
    ∧ requestToAnalysisId_at s1 8 = 1
    ∧ requestResultDecryption 1 9 s1 = Ok s2
    ∧ requestToAnalysisId_at s2 8 = 1
    ∧ requestToAnalysisId_at s2 9 = 1.
Proof.
  refine (proj1 (second_request_accepted request_pending 1 8 9 _ _ _));
    [by vm_compute | by vm_compute | discriminate].
Defined.

(** C4 fails as stated: analysis 1 is complete and revealed, and a second
    [storeAnalysisResults] for id 1 succeeds, replaces the encrypted bundle
    and empties the Decrypted Result. *)
Lemma duplicate_store_accepted :
  isComplete (analysisResults_at revealed_once 1) = true
  ∧ decryptedResults_at revealed_once 1
    = {| ringMembers := [5; 9]; riskScore := 7; isRevealed := true |}
  ∧ ∃ s',
      storeAnalysisResults 1 [21] 23 revealed_once = Ok s'
      ∧ analysisResults_at s' 1
        = {| encryptedRingMembers := [21]; encryptedRiskScore := 23;
             isComplete := true |}
      ∧ decryptedResults_at s' 1
        = {| ringMembers := []; riskScore := 0; isRevealed := false |}.
Proof.
  split; [by vm_compute|]. split; [reflexivity|].
  eexists. split; [reflexivity|]. split; reflexivity.
Qed.

(** C7 fails as stated: [initializeAdjacencyMatrix(0)] succeeds, and
    [initializeAdjacencyMatrix(2^128)] allocates nothing: the product
    [size * size] overflows and the call reverts.  So does
    [initializeAdjacencyMatrix(2^32)], whose 2^64 cells cannot be
    allocated. *)
Lemma initialize_zero_accepted :
  initializeAdjacencyMatrix 0 deployed = Ok (set_matrix 0 [] deployed)
  ∧ initializeAdjacencyMatrix (2 ^ 128) deployed
    = Revert (Panic ArithmeticOverflow)
  ∧ initializeAdjacencyMatrix (2 ^ 32) deployed
    = Revert (Panic AllocationTooLarge).
Proof. split; [|split]; reflexivity. Qed.

Lemma initialize_allocates_zero_cells_witness :
  (∃ s',
     initializeAdjacencyMatrix 3 deployed = Ok s'
     ∧ matrixSize s' = 3
     ∧ N.of_nat (length (encryptedAdjacencyMatrix s')) = 3 * 3
     ∧ (∀ k c, encryptedAdjacencyMatrix s' !! k = Some c → c = asEuint32 0)
     ∧ (3 = 0 → encryptedAdjacencyMatrix s' = []))
  ∧ initializeAdjacencyMatrix (2 ^ 32) deployed
    = Revert (Panic AllocationTooLarge)
  ∧ initializeAdjacencyMatrix (2 ^ 128) deployed
    = Revert (Panic ArithmeticOverflow).
Proof.
  split; [|split].
  - refine (proj1 (initialize_allocates_zero_cells 3 deployed) _).
    by vm_compute.
  - refine (proj1 (proj2 (initialize_allocates_zero_cells (2 ^ 32) deployed))
              _ _); by vm_compute.
  - refine (proj2 (proj2 (initialize_allocates_zero_cells (2 ^ 128) deployed))
              _). by vm_compute.
Defined.

Lemma edge_set_then_get_witness :
  (∃ s1,
     addEncryptedEdge 1 2 42 matrix_of_three = Ok s1
     ∧ getAdjacencyElement 1 2 s1 = Ok 42
     ∧ ∀ weight2, ∃ s2,
         addEncryptedEdge 1 2 weight2 s1 = Ok s2
         ∧ getAdjacencyElement 1 2 s2 = Ok weight2)
  ∧ addEncryptedEdge 3 0 42 matrix_of_three = Revert IndexOutOfRange
  ∧ getAdjacencyElement 3 0 matrix_of_three = Revert IndexOutOfRange.
Proof.
  assert (Hreach : reachable matrix_of_three) by (by exists [InitMatrix 3]).
  split.
  - refine (proj1 (edge_set_then_get matrix_of_three 1 2 42 Hreach) _ _);
      by vm_compute.
  - refine (proj2 (edge_set_then_get matrix_of_three 3 0 42 Hreach) _).
    left. by vm_compute.
Defined.

Lemma reveal_is_positional_witness :
  (∃ s',
     requestResultDecryption 1 7 (run [Store 1 [11; 12] 13] deployed) = Ok s'
     ∧ events s'
       = [AnalysisCompleted 1; DecryptionRequested 7 [11; 12; 13]]
     ∧ requestToAnalysisId_at s' 7 = 1)
  ∧ decryptedResults_at revealed_once 1
    = {| ringMembers := [5; 9]; riskScore := 7; isRevealed := true |}.
Proof.
  split.
  - refine (proj1 reveal_is_positional
              (run [Store 1 [11; 12] 13] deployed) 1 7 _ _); by vm_compute.
  - assert (Hcb : decryptAnalysisResult 7 (plain_abi_encode [5; 9; 7])
                    [Byte.x01] request_pending = Ok revealed_once)
      by reflexivity.
    destruct (proj2 reveal_is_positional _ _ _ _ _ Hcb) as (p & Hp & _ & Hd).
    assert (p = [5; 9; 7]) as -> by (vm_compute in Hp; congruence).
    change (requestToAnalysisId_at request_pending 7) with 1 in Hd.
    cbv zeta in Hd. destruct Hd as (Hm & Hs & Hr).
    destruct (decryptedResults_at revealed_once 1) as [m sc rv].
    simpl in *. congruence.
Defined.

Lemma analysis_zero_never_revealed_witness :
  isRevealed
    (decryptedResults_at
       (run [Store 0 [11; 12] 13; RequestReveal 0 7;
             Callback 7 (plain_abi_encode [5; 9; 7]) [Byte.x01]] deployed) 0)
  = false
  ∧ decryptAnalysisResult 7 (plain_abi_encode [5; 9; 7]) [Byte.x01]
      (run [Store 0 [11; 12] 13; RequestReveal 0 7] deployed)
    = Revert InvalidRequest.
Proof.
  split.
  - refine (proj1 (analysis_zero_never_revealed _ _)). by eexists.
  - refine (proj2 (proj2 (analysis_zero_never_revealed _ _)) 7 _ _ _);
      [by eexists | by vm_compute].
Defined.


(** C6 at a start node that encrypts 1, on a 3 x 3 matrix: the matrix is
    initialized, and the traversal reverts with an out-of-range panic in
    its third round, after two complete rounds instead of three. *)
Theorem encryptedBFS_start_one_panics :
  matrixSize matrix_of_three = 3
  ∧ encryptedBFS 1 matrix_of_three = Revert (Panic ArrayOutOfBounds)
  ∧ encryptedBFS_rounds 1 matrix_of_three = 2%nat.
Proof. split; [by vm_compute|]. split; [reflexivity | by vm_compute]. Qed.

End Concrete.

(** ** The transaction ledger *)

Section Ledger.
Context `{F : FHEVM}.

(** The ledger is written by [submitEncryptedTransaction] only, under the
    next sequence number. *)
Lemma exec_ledger (s : State) (c : Call) :
  (transactionCount (exec s c) = transactionCount s
   ∧ encryptedTransactions (exec s c) = encryptedTransactions s)
  ∨ (∃ tx,
       transactionCount s + 1 < uint256_limit
       ∧ id tx = transactionCount s + 1
       ∧ transactionCount (exec s c) = transactionCount s + 1
       ∧ encryptedTransactions (exec s c)
         = <[transactionCount s + 1 := tx]> (encryptedTransactions s)).
Proof.
  unfold exec.
  destruct c as [t cp se am ts now|size|from to w|now|a ring sc|a r|r cl pr];
    simpl call.
  - unfold submitEncryptedTransaction, checked_add.
    destruct (decide _) as [Hfit|]; [|by left].
    rewrite bind_Ok. right.
    by exists {| id := transactionCount s + 1; encryptedTraderId := t;
                 encryptedCounterparty := cp; encryptedSecurity := se;
                 encryptedAmount := am; encryptedTimestamp := ts;
                 submissionTime := now |}.
  - left. unfold initializeAdjacencyMatrix.
    destruct (checked_mul _ _); [|done]. rewrite bind_Ok.
    destruct (allocate _ _); [|done]. rewrite bind_Ok.
    by destruct (for_range _ _ _ _).
  - left. unfold addEncryptedEdge.
    destruct (require _ _); [|done]. rewrite bind_Ok.
    destruct (checked_mul _ _); [|done]. rewrite bind_Ok.
    destruct (checked_add _ _); [|done]. rewrite bind_Ok.
    by destruct (array_set _ _ _).
  - by left.
  - by left.
  - left. rewrite requestResultDecryption_spec. cbv zeta.
    destruct (isComplete _); [|done]. by destruct (isRevealed _).
  - left. rewrite decryptAnalysisResult_spec. cbv zeta.
    destruct (bool_decide _); [done|].
    destruct (isRevealed _); [done|].
    destruct (checkSignatures _ _ _); [|done].
    by destruct (abi_decode_uint32s cl) as [[|x results]|].
Qed.

Lemma ledger_invariant (s : State) :
  reachable s →
  ∀ k,
    (is_Some (encryptedTransactions s !! k) ↔ 1 ≤ k ≤ transactionCount s)
    ∧ (∀ tx, encryptedTransactions s !! k = Some tx → id tx = k).
Proof.
  revert s.
  apply (reachable_ind (fun s => ∀ k,
    (is_Some (encryptedTransactions s !! k) ↔ 1 ≤ k ≤ transactionCount s)
    ∧ (∀ tx, encryptedTransactions s !! k = Some tx → id tx = k))).
  - intros k. simpl. rewrite lookup_empty. split.
    + split; [by intros [? ?] | lia].
    + done.
  - intros s c _ IH k.
    destruct (exec_ledger s c) as [[-> ->]|(tx & Hfit & Hid & -> & ->)];
      [apply IH|].
    destruct (IH k) as [Hdom Hids].
    destruct (decide (transactionCount s + 1 = k)) as [<-|Hne].
    + rewrite lookup_insert_eq. split.
      * split; [lia | by eexists].
      * by intros ? [= <-].
    + rewrite lookup_insert_ne by done. split; [|done].
      rewrite Hdom. lia.
Qed.

(** In every reachable state the ledger holds a record under exactly the
    ids 1 .. [transactionCount], each record carries its own id, and id 0 is
    never used. *)
Theorem ledger_ids_are_one_to_count (s : State) (k : N) :
  reachable s →
  (is_Some (encryptedTransactions s !! k) ↔ 1 ≤ k ≤ transactionCount s)
  ∧ (∀ tx, encryptedTransactions s !! k = Some tx → id tx = k).
Proof. intros Hs. by apply ledger_invariant. Qed.

(** A record of the ledger is never changed or removed: once it is stored
    under an id, it is there after every further sequence of calls. *)
Theorem ledger_is_append_only (s : State) (k : N) (tx : EncryptedTransaction)
    (cs : list Call) :
  reachable s →
  encryptedTransactions s !! k = Some tx →
  encryptedTransactions (run cs s) !! k = Some tx.
Proof.
  revert s. induction cs as [|c cs IH]; intros s Hs Hk; [done|].
  rewrite run_cons. apply IH; [by apply reachable_exec|].
  destruct (exec_ledger s c) as [[_ ->]|(tx' & _ & _ & _ & ->)]; [done|].
  destruct (ledger_invariant s Hs k) as [Hdom _].
  rewrite lookup_insert_ne; [done|].
  assert (1 ≤ k ≤ transactionCount s) by (apply Hdom; by eexists). lia.
Qed.

End Ledger.

(** ** The cells of the adjacency matrix *)

Section Cells.
Context `{F : FHEVM}.

(** Row-major subscripts of distinct cells are distinct. *)
Lemma cell_subscript_inj (n from to i j : N) :
  to < n → j < n → from * n + to = i * n + j → from = i ∧ to = j.
Proof.
  intros Ht Hj Heq.
  destruct (N.lt_trichotomy from i) as [Hlt|[->|Hgt]]; [nia | lia | nia].
Qed.

(** In every reachable state the matrix has exactly [matrixSize * matrixSize]
    cells, so a read at indices below [matrixSize] never reverts. *)
Theorem matrix_is_square (s : State) (i j : N) :
  reachable s →
  N.of_nat (length (encryptedAdjacencyMatrix s)) = matrixSize s * matrixSize s
  ∧ (i < matrixSize s → j < matrixSize s →
     ∃ c, getAdjacencyElement i j s = Ok c
          ∧ encryptedAdjacencyMatrix s !! N.to_nat (i * matrixSize s + j)
            = Some c).
Proof.
  intros Hs. apply reachable_matrix_wf in Hs as Hwf.
  split; [apply Hwf|]. intros Hi Hj.
  destruct (cell_in_range s i j) as [Hin _]; [done..|].
  destruct (lookup_lt_is_Some_2 (encryptedAdjacencyMatrix s)
              (N.to_nat (i * matrixSize s + j))) as [c Hc]; [lia|].
  exists c. split; [by apply getAdjacencyElement_lookup | done].
Qed.

(** Right after a successful [initializeAdjacencyMatrix(size)], that is for
    [size * size] at most 2^64 - 1, from whatever state and with whatever
    edges before, every cell with indices below [size] reads as
    [FHE.asEuint32(0)]. *)
Theorem initialize_then_get_zero (s : State) (size i j : N) :
  size * size < alloc_limit → i < size → j < size →
  ∃ s', initializeAdjacencyMatrix size s = Ok s'
        ∧ getAdjacencyElement i j s' = Ok (asEuint32 0).
Proof.
  intros Hfit Hi Hj. pose proof alloc_limit_fits. eexists.
  split; [by apply initializeAdjacencyMatrix_Ok|].
  apply getAdjacencyElement_lookup; simpl; [|done|done|].
  - split; simpl; [rewrite length_replicate; lia | lia].
  - apply lookup_replicate_2. nia.
Qed.

(** [addEncryptedEdge] writes one cell: every other cell with indices below
    [matrixSize] reads as before. *)
Theorem edge_set_keeps_other_cells (s : State) (from to i j : N)
    (weight : euint32) :
  reachable s →
  from < matrixSize s → to < matrixSize s →
  i < matrixSize s → j < matrixSize s →
  (i, j) ≠ (from, to) →
  ∃ s', addEncryptedEdge from to weight s = Ok s'
        ∧ matrixSize s' = matrixSize s
        ∧ getAdjacencyElement i j s' = getAdjacencyElement i j s.
Proof.
  intros Hs Hf Ht Hi Hj Hne. apply reachable_matrix_wf in Hs as Hwf.
  eexists. split; [by apply addEncryptedEdge_Ok|]. split; [done|].
  destruct (cell_in_range s i j) as [Hin _]; [done..|].
  destruct (lookup_lt_is_Some_2 (encryptedAdjacencyMatrix s)
              (N.to_nat (i * matrixSize s + j))) as [c Hc]; [lia|].
  rewrite (getAdjacencyElement_lookup s i j c) by done.
  apply getAdjacencyElement_lookup;
    [by apply matrix_wf_set_cell | done | done |].
  simpl. rewrite list_lookup_insert_ne; [done|].
  intros Heq. apply N2Nat.inj in Heq.
  apply cell_subscript_inj in Heq as [-> ->]; done.
Qed.

(** [encryptedBFS] never reads the adjacency matrix: setting an edge does
    not change what the traversal returns for any start node. *)
Theorem encryptedBFS_ignores_edges (s s' : State) (from to : N)
    (weight startNode : euint32) :
  addEncryptedEdge from to weight s = Ok s' →
  encryptedBFS startNode s' = encryptedBFS startNode s.
Proof.
  intros Hadd.
  assert (Hsize : matrixSize s' = matrixSize s).
  { revert Hadd. unfold addEncryptedEdge.
    destruct (require _ _); [|done]. rewrite bind_Ok.
    destruct (checked_mul _ _); [|done]. rewrite bind_Ok.
    destruct (checked_add _ _); [|done]. rewrite bind_Ok.
    destruct (array_set _ _ _); [|done]. rewrite bind_Ok.
    by intros [= <-]. }
  unfold encryptedBFS, bfs_setup. by rewrite Hsize.
Qed.

End Cells.

(** ** The result store across histories *)

Section Results.
Context `{F : FHEVM}.

(** What one call does to the encrypted results, the Decrypted Results and
    the token map together. *)
Lemma exec_protocol (s : State) (c : Call) :
  (analysisResults (exec s c) = analysisResults s
   ∧ decryptedResults (exec s c) = decryptedResults s
   ∧ requestToAnalysisId (exec s c) = requestToAnalysisId s)
  ∨ (∃ a ring sc,
       c = Store a ring sc
       ∧ analysisResults (exec s c)
         = <[a := {| encryptedRingMembers := ring; encryptedRiskScore := sc;
                     isComplete := true |}]> (analysisResults s)
       ∧ decryptedResults (exec s c) = <[a := unrevealed]> (decryptedResults s)
       ∧ requestToAnalysisId (exec s c) = requestToAnalysisId s)
  ∨ (∃ a tok,
       c = RequestReveal a tok
       ∧ isComplete (analysisResults_at s a) = true
       ∧ analysisResults (exec s c) = analysisResults s
       ∧ decryptedResults (exec s c) = decryptedResults s
       ∧ requestToAnalysisId (exec s c) = <[tok := a]> (requestToAnalysisId s))
  ∨ (∃ a tok results,
       requestToAnalysisId s !! tok = Some a
       ∧ analysisResults (exec s c) = analysisResults s
       ∧ decryptedResults (exec s c)
         = <[a := revealed_of results]> (decryptedResults s)
       ∧ requestToAnalysisId (exec s c) = requestToAnalysisId s).
Proof.
  unfold exec.
  destruct c as [t cp se am ts now|size|from to w|now|a ring sc|a r|r cl pr];
    simpl call.
  - left. unfold submitEncryptedTransaction. by destruct (checked_add _ _).
  - left. unfold initializeAdjacencyMatrix.
    destruct (checked_mul _ _); [|done]. rewrite bind_Ok.
    destruct (allocate _ _); [|done]. rewrite bind_Ok.
    by destruct (for_range _ _ _ _).
  - left. unfold addEncryptedEdge.
    destruct (require _ _); [|done]. rewrite bind_Ok.
    destruct (checked_mul _ _); [|done]. rewrite bind_Ok.
    destruct (checked_add _ _); [|done]. rewrite bind_Ok.
    by destruct (array_set _ _ _).
  - by left.
  - right; left. by exists a, ring, sc.
  - rewrite requestResultDecryption_spec. cbv zeta.
    destruct (isComplete _) eqn:Hc; [|by left].
    destruct (isRevealed _); [by left|].
    right; right; left. by exists a, r.
  - rewrite decryptAnalysisResult_spec. cbv zeta.
    destruct (bool_decide _) eqn:Hz; [by left|].
    destruct (isRevealed _); [by left|].
    destruct (checkSignatures _ _ _); [|by left].
    destruct (abi_decode_uint32s cl) as [[|x results]|]; [by left| |by left].
    right; right; right.
    exists (requestToAnalysisId_at s r), r, (x :: results).
    split; [|done].
    apply bool_decide_eq_false in Hz. unfold requestToAnalysisId_at in *.
    by destruct (requestToAnalysisId s !! r).
Qed.

Lemma analysisResults_at_insert (s s' : State) (k a : N) (r : AnalysisResult) :
  analysisResults s' = <[a := r]> (analysisResults s) →
  analysisResults_at s' k = if decide (a = k) then r else analysisResults_at s k.
Proof.
  unfold analysisResults_at. intros ->.
  rewrite lookup_insert. by destruct (decide (a = k)).
Qed.

Lemma analysisResults_at_eq (s s' : State) (k : N) :
  analysisResults s' = analysisResults s →
  analysisResults_at s' k = analysisResults_at s k.
Proof. unfold analysisResults_at. by intros ->. Qed.

(** The invariants of the result store: a recorded token and a revealed
    result both belong to a complete analysis, and a result that is not
    revealed is empty. *)
Lemma results_invariant (s : State) :
  reachable s →
  (∀ tok a, requestToAnalysisId s !! tok = Some a →
            isComplete (analysisResults_at s a) = true)
  ∧ (∀ a, isRevealed (decryptedResults_at s a) = true →
          isComplete (analysisResults_at s a) = true)
  ∧ (∀ a, isRevealed (decryptedResults_at s a) = false →
          decryptedResults_at s a = unrevealed).
Proof.
  revert s.
  apply (reachable_ind (fun s =>
    (∀ tok a, requestToAnalysisId s !! tok = Some a →
              isComplete (analysisResults_at s a) = true)
    ∧ (∀ a, isRevealed (decryptedResults_at s a) = true →
            isComplete (analysisResults_at s a) = true)
    ∧ (∀ a, isRevealed (decryptedResults_at s a) = false →
            decryptedResults_at s a = unrevealed))).
  - split; [|split]; [intros tok a; simpl; by rewrite lookup_empty|done|done].
  - intros s c _ (Htok & Hrev & Hun).
    destruct (exec_protocol s c)
      as [(Ha & Hd & Ht)|[(a & ring & sc & _ & Ha & Hd & Ht)
         |[(a & tok & _ & Hc & Ha & Hd & Ht)|(a & tok & res & Hm & Ha & Hd & Ht)]]].
    + split; [|split].
      * intros tok a. rewrite Ht, (analysisResults_at_eq _ _ _ Ha). apply Htok.
      * intros a. rewrite (decryptedResults_at_eq _ _ _ Hd),
          (analysisResults_at_eq _ _ _ Ha). apply Hrev.
      * intros a. rewrite (decryptedResults_at_eq _ _ _ Hd). apply Hun.
    + split; [|split].
      * intros tok a'. rewrite Ht, (analysisResults_at_insert _ _ _ _ _ Ha).
        destruct (decide _); [done | apply Htok].
      * intros a'. rewrite (decryptedResults_at_insert _ _ _ _ _ Hd),
          (analysisResults_at_insert _ _ _ _ _ Ha).
        destruct (decide _); [done | apply Hrev].
      * intros a'. rewrite (decryptedResults_at_insert _ _ _ _ _ Hd).
        destruct (decide _); [done | apply Hun].
    + split; [|split].
      * intros tok' a'. rewrite Ht, (analysisResults_at_eq _ _ _ Ha).
        rewrite lookup_insert. destruct (decide _); [|apply Htok].
        by intros [= <-].
      * intros a'. rewrite (decryptedResults_at_eq _ _ _ Hd),
          (analysisResults_at_eq _ _ _ Ha). apply Hrev.
      * intros a'. rewrite (decryptedResults_at_eq _ _ _ Hd). apply Hun.
    + split; [|split].
      * intros tok' a'. rewrite Ht, (analysisResults_at_eq _ _ _ Ha).
        apply Htok.
      * intros a'. rewrite (decryptedResults_at_insert _ _ _ _ _ Hd),
          (analysisResults_at_eq _ _ _ Ha).
        destruct (decide _) as [<-|]; [|apply Hrev].
        intros _. by apply (Htok tok).
      * intros a'. rewrite (decryptedResults_at_insert _ _ _ _ _ Hd).
        destruct (decide _); [done | apply Hun].
Qed.

(** In every reachable state a token of the map points to a complete
    analysis, and a revealed Decrypted Result belongs to a complete
    analysis: nothing is revealed that was not stored. *)
Theorem revealed_only_if_complete (s : State) (a : N) :
  reachable s →
  (∀ tok, requestToAnalysisId s !! tok = Some a →
          isComplete (analysisResults_at s a) = true)
  ∧ (isRevealed (decryptedResults_at s a) = true →
     isComplete (analysisResults_at s a) = true).
Proof.
  intros Hs. destruct (results_invariant s Hs) as (Htok & Hrev & _).
  split; [intros tok; apply Htok | apply Hrev].
Qed.

(** In every reachable state [getDecryptedAnalysisResult] succeeds, and for
    an id whose result is not revealed, stored or not, it returns no
    members, score 0 and the flag false. *)
Theorem unrevealed_result_reads_empty (s : State) (a : N) :
  reachable s →
  isRevealed (decryptedResults_at s a) = false →
  getDecryptedAnalysisResult a s = Ok ([], 0, false).
Proof.
  intros Hs Hun. destruct (results_invariant s Hs) as (_ & _ & Hempty).
  unfold getDecryptedAnalysisResult. cbv zeta. by rewrite (Hempty a Hun).
Qed.

(** The encrypted result of an id is written by [storeAnalysisResults] for
    that id and by nothing else. *)
Lemma analysisResults_stable (s : State) (a : N) (cs : list Call) :
  Forall (fun c => stores_on a c = false) cs →
  analysisResults_at (run cs s) a = analysisResults_at s a.
Proof.
  intros Hcs. revert s.
  induction Hcs as [|c cs Hc _ IH]; intros s; [done|].
  rewrite run_cons, IH.
  destruct (exec_protocol s c)
    as [(Ha & _)|[(a' & ring & sc & -> & Ha & _)
       |[(a' & tok & _ & _ & Ha & _)|(a' & tok & res & _ & Ha & _)]]];
    try by apply analysisResults_at_eq.
  rewrite (analysisResults_at_insert _ _ _ _ _ Ha).
  simpl in Hc. apply bool_decide_eq_false in Hc. by rewrite decide_False.
Qed.

(** The bundle stored under an id is what [getEncryptedAnalysisResult]
    returns after any further calls, requests and callbacks included, that
    contain no [storeAnalysisResults] for that id. *)
Theorem stored_bundle_reads_back (s : State) (a : N) (ring : list euint32)
    (score : euint32) (cs : list Call) :
  Forall (fun c => stores_on a c = false) cs →
  getEncryptedAnalysisResult a (run (Store a ring score :: cs) s)
  = Ok (ring, score).
Proof.
  intros Hcs. rewrite run_cons.
  unfold getEncryptedAnalysisResult. cbv zeta.
  rewrite analysisResults_stable by done.
  unfold exec, analysisResults_at. simpl.
  by rewrite lookup_insert_eq.
Qed.

(** An id under which nothing was stored since deployment has no result:
    reading its encrypted result and requesting its decryption both fail
    with [AnalysisNotComplete], and its Decrypted Result reads as empty and
    not revealed. *)
Theorem never_stored_id_has_no_result (a : N) (cs : list Call) :
  Forall (fun c => stores_on a c = false) cs →
  getEncryptedAnalysisResult a (run cs deployed) = Revert AnalysisNotComplete
  ∧ (∀ reqId,
       requestResultDecryption a reqId (run cs deployed)
       = Revert AnalysisNotComplete)
  ∧ getDecryptedAnalysisResult a (run cs deployed) = Ok ([], 0, false).
Proof.
  intros Hcs.
  assert (Hnone : isComplete (analysisResults_at (run cs deployed) a) = false)
    by (by rewrite analysisResults_stable).
  assert (Hs : reachable (run cs deployed)) by (by exists cs).
  destruct (results_invariant _ Hs) as (_ & Hrev & Hempty).
  split; [|split].
  - unfold getEncryptedAnalysisResult. cbv zeta. by rewrite Hnone.
  - intros reqId. rewrite requestResultDecryption_spec. cbv zeta.
    by rewrite Hnone.
  - unfold getDecryptedAnalysisResult. cbv zeta.
    rewrite (Hempty a); [done|].
    destruct (isRevealed _) eqn:E; [|done].
    apply Hrev in E. congruence.
Qed.

(** Store, request, callback, read: for a nonzero id, from any state, a
    bundle stored, requested with a token and answered by a callback whose
    proof verifies and whose plaintexts decode to [members ++ [score]] reads
    back as [(members, score, true)]. *)
Theorem store_request_callback_reads_back (s : State) (a tok : N)
    (ring : list euint32) (sc : euint32) (cleartexts proof : list Byte.byte)
    (members : list N) (score : N) :
  a ≠ 0 →
  checkSignatures tok cleartexts proof = true →
  abi_decode_uint32s cleartexts = Some (members ++ [score]) →
  getDecryptedAnalysisResult a
    (run [Store a ring sc; RequestReveal a tok; Callback tok cleartexts proof]
       s)
  = Ok (members, score, true).
Proof.
  intros Ha Hsig Hdec.
  unfold run. simpl foldl. unfold exec at 3. simpl call.
  rewrite storeAnalysisResults_spec.
  set (s1 := emit _ _).
  assert (Hc1 : isComplete (analysisResults_at s1 a) = true)
    by (unfold analysisResults_at; simpl; by rewrite lookup_insert_eq).
  assert (Hr1 : isRevealed (decryptedResults_at s1 a) = false)
    by (unfold decryptedResults_at; simpl; by rewrite lookup_insert_eq).
  unfold exec at 2. simpl call.
  rewrite requestResultDecryption_spec. cbv zeta. rewrite Hc1, Hr1.
  set (s2 := set_requests _ _).
  assert (Ht2 : requestToAnalysisId_at s2 tok = a)
    by (unfold requestToAnalysisId_at; simpl; by rewrite lookup_insert_eq).
  assert (Hr2 : isRevealed (decryptedResults_at s2 a) = false) by exact Hr1.
  unfold exec. simpl call.
  rewrite decryptAnalysisResult_spec. cbv zeta.
  rewrite Ht2, bool_decide_eq_false_2, Hr2, Hsig, Hdec by done.
  destruct (members ++ [score]) as [|x rest] eqn:Hp;
    [by destruct members|].
  rewrite <- Hp.
  unfold getDecryptedAnalysisResult, decryptedResults_at. simpl.
  rewrite lookup_insert_eq. simpl.
  rewrite last_snoc, length_app. simpl.
  replace (length members + 1 - 1)%nat with (length members) by lia.
  by rewrite take_app_length.
Qed.

(** The guards of [decryptAnalysisResult] in their order: a token that maps
    to no id, or to id 0, is refused with [InvalidRequest] whatever the
    proof; then a revealed result with [AlreadyRevealed]; then a proof that
    does not verify with [ProofVerificationFailed]; and a verified callback
    that delivers an empty plaintext list panics on [length - 1]. *)
Theorem callback_failures_in_order (s : State) (tok : N)
    (cleartexts proof : list Byte.byte) :
  let a := requestToAnalysisId_at s tok in
  (a = 0 →
   decryptAnalysisResult tok cleartexts proof s = Revert InvalidRequest)
  ∧ (a ≠ 0 → isRevealed (decryptedResults_at s a) = true →
     decryptAnalysisResult tok cleartexts proof s = Revert AlreadyRevealed)
  ∧ (a ≠ 0 → isRevealed (decryptedResults_at s a) = false →
     checkSignatures tok cleartexts proof = false →
     decryptAnalysisResult tok cleartexts proof s
     = Revert ProofVerificationFailed)
  ∧ (a ≠ 0 → isRevealed (decryptedResults_at s a) = false →
     checkSignatures tok cleartexts proof = true →
     abi_decode_uint32s cleartexts = Some [] →
     decryptAnalysisResult tok cleartexts proof s
     = Revert (Panic ArithmeticOverflow)).
Proof.
  cbv zeta. rewrite decryptAnalysisResult_spec. cbv zeta.
  split; [|split; [|split]].
  - intros ->. by rewrite bool_decide_eq_true_2.
  - intros Ha ->. by rewrite bool_decide_eq_false_2.
  - intros Ha -> ->. by rewrite bool_decide_eq_false_2.
  - intros Ha -> -> ->. by rewrite bool_decide_eq_false_2.
Qed.

End Results.

(** ** Isolation between the parts of the storage *)

Section Isolation.
Context `{F : FHEVM}.

(** What one call does to the matrix. *)
Lemma exec_matrix (s : State) (c : Call) :
  (matrixSize (exec s c) = matrixSize s
   ∧ encryptedAdjacencyMatrix (exec s c) = encryptedAdjacencyMatrix s)
  ∨ (∃ size, c = InitMatrix size)
  ∨ (∃ from to w,
       c = AddEdge from to w
       ∧ from < matrixSize s ∧ to < matrixSize s
       ∧ matrixSize (exec s c) = matrixSize s
       ∧ encryptedAdjacencyMatrix (exec s c)
         = <[N.to_nat (from * matrixSize s + to) := w]>
             (encryptedAdjacencyMatrix s)).
Proof.
  destruct c as [t cp se am ts now|size|from to w|now|a ring sc|a r|r cl pr];
    [| right; left; by eexists | | | | |]; unfold exec; simpl call.
  - left. unfold submitEncryptedTransaction. by destruct (checked_add _ _).
  - unfold addEncryptedEdge.
    destruct (bool_decide _) eqn:Hin; [|by left].
    apply bool_decide_eq_true in Hin as [Hf Ht].
    rewrite require_true, bind_Ok.
    destruct (checked_mul _ _) as [row|] eqn:Hrow; [|by left].
    rewrite bind_Ok.
    destruct (checked_add _ _) as [k|] eqn:Hk; [|by left]. rewrite bind_Ok.
    destruct (array_set _ _ _) as [m|] eqn:Hm; [|by left].
    right; right. exists from, to, w.
    unfold checked_mul in Hrow. destruct (decide _); [|done].
    injection Hrow as <-.
    unfold checked_add in Hk. destruct (decide _); [|done].
    injection Hk as <-.
    unfold array_set in Hm. destruct (decide _); [|done].
    injection Hm as <-. done.
  - by left.
  - by left.
  - left. rewrite requestResultDecryption_spec. cbv zeta.
    destruct (isComplete _); [|done]. by destruct (isRevealed _).
  - left. rewrite decryptAnalysisResult_spec. cbv zeta.
    destruct (bool_decide _); [done|].
    destruct (isRevealed _); [done|].
    destruct (checkSignatures _ _ _); [|done].
    by destruct (abi_decode_uint32s cl) as [[|x results]|].
Qed.

(** A cell keeps its content across calls that neither initialize the
    matrix nor set that cell. *)
Lemma cell_kept (from to : N) (weight : euint32) (cs : list Call) (s : State) :
  Forall (fun c => match c with
                   | InitMatrix _ => False
                   | AddEdge i j _ => (i, j) ≠ (from, to)
                   | _ => True
                   end) cs →
  matrix_wf s → from < matrixSize s → to < matrixSize s →
  encryptedAdjacencyMatrix s !! N.to_nat (from * matrixSize s + to)
  = Some weight →
  getAdjacencyElement from to (run cs s) = Ok weight.
Proof.
  intros Hcs. revert s.
  induction Hcs as [|c cs Hc _ IH]; intros s Hwf Hf Ht Hcell.
  - by apply getAdjacencyElement_lookup.
  - rewrite run_cons.
    pose proof (matrix_wf_exec s c Hwf) as Hwf'.
    destruct (exec_matrix s c)
      as [[Hn Hm]|[[size ->]|(i & j & w & -> & Hi & Hj & Hn & Hm)]];
      [|done|].
    + apply IH; rewrite ?Hn, ?Hm; done.
    + apply IH; rewrite ?Hn, ?Hm; [done..|].
      rewrite list_lookup_insert_ne; [done|].
      intros Heq. apply N2Nat.inj in Heq.
      apply cell_subscript_inj in Heq as [-> ->]; done.
Qed.

(** A weight set in a cell is what [getAdjacencyElement] returns for that
    cell after any further calls, as long as the matrix is not initialized
    again and the same cell is not set again: submissions, stores, requests,
    callbacks and edges set in other cells leave it alone. *)
Theorem edge_persists (s : State) (from to : N) (weight : euint32)
    (cs : list Call) :
  reachable s →
  from < matrixSize s → to < matrixSize s →
  Forall (fun c => match c with
                   | InitMatrix _ => False
                   | AddEdge i j _ => (i, j) ≠ (from, to)
                   | _ => True
                   end) cs →
  getAdjacencyElement from to (run (AddEdge from to weight :: cs) s)
  = Ok weight.
Proof.
  intros Hs Hf Ht Hcs. rewrite run_cons.
  apply reachable_matrix_wf in Hs as Hwf.
  destruct (cell_in_range s from to) as [Hin _]; [done..|].
  unfold exec. simpl call. rewrite addEncryptedEdge_Ok by done.
  apply cell_kept; [done | by apply matrix_wf_set_cell | done | done |].
  simpl. apply list_lookup_insert_eq. lia.
Qed.

(** A successful callback writes the Decrypted Result of the token's
    analysis id and appends one [ResultRevealed] event; the encrypted
    results, the Decrypted Results of all other ids, the token map, the
    matrix and the ledger are as before. *)
Theorem callback_touches_one_result (s s' : State) (tok : N)
    (cleartexts proof : list Byte.byte) :
  decryptAnalysisResult tok cleartexts proof s = Ok s' →
  analysisResults s' = analysisResults s
  ∧ (∀ k, k ≠ requestToAnalysisId_at s tok →
          decryptedResults_at s' k = decryptedResults_at s k)
  ∧ requestToAnalysisId s' = requestToAnalysisId s
  ∧ encryptedAdjacencyMatrix s' = encryptedAdjacencyMatrix s
  ∧ matrixSize s' = matrixSize s
  ∧ encryptedTransactions s' = encryptedTransactions s
  ∧ transactionCount s' = transactionCount s
  ∧ events s' = events s ++ [ResultRevealed (requestToAnalysisId_at s tok)].
Proof.
  rewrite decryptAnalysisResult_spec. cbv zeta.
  destruct (bool_decide _); [done|].
  destruct (isRevealed _); [done|].
  destruct (checkSignatures _ _ _); [|done].
  destruct (abi_decode_uint32s cleartexts) as [[|x results]|]; [done| |done].
  intros [= <-]. simpl. repeat split.
  intros k Hk. unfold decryptedResults_at. simpl.
  by rewrite lookup_insert_ne.
Qed.

End Isolation.

(** ** What the traversal returns and where it writes *)

Section TraversalEffect.
Context `{F : FHEVM}.
Implicit Types (l : BfsLocals) (s : State).

(** One round in closed form: with both subscripts inside their arrays it
    writes [visited] at the decrypted [current] and [result] at the
    decrypted [index], each through [FHE.select] on the same condition, and
    advances both cursors. *)
Lemma bfs_round_exact (i : N) l (old_v old_r : euint32) :
  visited l !! N.to_nat (decrypt (current l)) = Some old_v →
  bfs_result l !! N.to_nat (decrypt (index l)) = Some old_r →
  bfs_round i l
  = Ok {| visited :=
            <[N.to_nat (decrypt (current l)) :=
                fhe_select
                  (fhe_and (fhe_ne old_v (asEuint32 1))
                           (fhe_gt (current l) (asEuint32 0)))
                  (asEuint32 1) old_v]> (visited l);
          queue := queue l;
          bfs_result :=
            <[N.to_nat (decrypt (index l)) :=
                fhe_select
                  (fhe_and (fhe_ne old_v (asEuint32 1))
                           (fhe_gt (current l) (asEuint32 0)))
                  (current l) old_r]> (bfs_result l);
          current := fhe_add (current l) (asEuint32 1);
          index := fhe_add (index l) (asEuint32 1) |}.
Proof.
  intros Hv Hr. unfold bfs_round, visited_subscript, result_subscript.
  rewrite (array_get_Some (visited l) _ old_v Hv).
  rewrite (array_get_Some (bfs_result l) _ old_r Hr).
  rewrite !bind_Ok. cbv beta zeta.
  rewrite array_set_in by (apply lookup_lt_Some in Hv; lia).
  rewrite !bind_Ok. cbv beta.
  rewrite array_set_in by (apply lookup_lt_Some in Hr; lia).
  by rewrite bind_Ok.
Qed.

Lemma bfs_round_result_oob (i : N) l :
  N.of_nat (length (bfs_result l)) ≤ result_subscript l →
  bfs_round i l = Revert (Panic ArrayOutOfBounds).
Proof.
  intros Hr.
  destruct (decide (visited_subscript l < N.of_nat (length (visited l))))
    as [Hv|Hv]; [|apply bfs_round_oob; lia].
  unfold bfs_round.
  destruct (array_get_in (visited l) _ Hv) as [v ->].
  rewrite !bind_Ok. cbv beta zeta. rewrite array_set_in by done.
  rewrite bind_Ok. by rewrite (array_get_oob (bfs_result l)).
Qed.

(** After [c] rounds both cursors have moved on by [c], modulo 2^32. *)
Lemma bfs_rounds_cursors (c : nat) (start : N) l l' :
  for_range start c bfs_round l = Ok l' →
  decrypt (current l') = (decrypt (current l) + N.of_nat c) `mod` uint32_limit
  ∧ decrypt (index l') = (decrypt (index l) + N.of_nat c) `mod` uint32_limit.
Proof.
  revert start l. induction c as [|c IH]; intros start l; simpl.
  - intros [= <-].
    rewrite !N.add_0_r, !N.mod_small by apply decrypt_range. done.
  - destruct (bfs_round start l) as [l1|] eqn:E; [|done].
    rewrite bind_Ok. intros Hrest.
    apply IH in Hrest as [Hc Hi].
    apply bfs_round_inv in E as (_ & _ & Hcur & Hidx).
    rewrite Hcur, Hidx, !decrypt_advance_one in *.
    rewrite N.Div0.add_mod_idemp_l in Hc, Hi.
    split; [rewrite Hc | rewrite Hi]; f_equal; lia.
Qed.

(** From a start node that decrypts to 0, round [k] finds zeros at subscript
    [k] of both arrays and leaves its entry there. *)
Lemma bfs_rounds_from_zero_entries (startNode : euint32) (n c k : nat) l :
  N.of_nat n ≤ uint32_limit → (k + c ≤ n)%nat →
  length (visited l) = n → length (bfs_result l) = n →
  (∀ j, (k ≤ j < n)%nat → visited l !! j = Some (asEuint32 0)) →
  (∀ j, (k ≤ j < n)%nat → bfs_result l !! j = Some (asEuint32 0)) →
  current l = Nat.iter k (fun c => fhe_add c (asEuint32 1)) startNode →
  decrypt (current l) = (0 + N.of_nat k) `mod` uint32_limit →
  decrypt (index l) = (0 + N.of_nat k) `mod` uint32_limit →
  ∃ l',
    for_range (N.of_nat k) c bfs_round l = Ok l'
    ∧ length (bfs_result l') = n
    ∧ (∀ j, (j < k)%nat → bfs_result l' !! j = bfs_result l !! j)
    ∧ (∀ j, (k ≤ j < k + c)%nat →
         bfs_result l' !! j
         = Some (fhe_select
                   (fhe_and (fhe_ne (asEuint32 0) (asEuint32 1))
                      (fhe_gt
                         (Nat.iter j (fun c => fhe_add c (asEuint32 1))
                            startNode)
                         (asEuint32 0)))
                   (Nat.iter j (fun c => fhe_add c (asEuint32 1)) startNode)
                   (asEuint32 0))).
Proof.
  intros Hn. revert k l.
  induction c as [|c IH]; intros k l Hk Hlv Hlr Hzv Hzr Hcur Hdc Hdi; simpl.
  - exists l. split; [done|]. split; [done|]. split; [done|]. intros j ?. lia.
  - assert (Hkk : N.to_nat ((0 + N.of_nat k) `mod` uint32_limit) = k)
      by (rewrite N.add_0_l, N.mod_small by lia; lia).
    rewrite (bfs_round_exact _ l (asEuint32 0) (asEuint32 0))
      by (rewrite ?Hdc, ?Hdi, Hkk; first [apply Hzv | apply Hzr]; lia).
    rewrite bind_Ok, Hdc, Hdi, Hkk, <- Nat2N.inj_succ.
    set (l1 := Build_BfsLocals _ _ _ _ _).
    assert (Hprem : ∃ l',
      for_range (N.of_nat (S k)) c bfs_round l1 = Ok l'
      ∧ length (bfs_result l') = n
      ∧ (∀ j, (j < S k)%nat → bfs_result l' !! j = bfs_result l1 !! j)
      ∧ (∀ j, (S k ≤ j < S k + c)%nat →
           bfs_result l' !! j
           = Some (fhe_select
                     (fhe_and (fhe_ne (asEuint32 0) (asEuint32 1))
                        (fhe_gt
                           (Nat.iter j (fun c => fhe_add c (asEuint32 1))
                              startNode)
                           (asEuint32 0)))
                     (Nat.iter j (fun c => fhe_add c (asEuint32 1)) startNode)
                     (asEuint32 0)))).
    { apply IH; subst l1; simpl.
      - lia.
      - rewrite length_insert. lia.
      - rewrite length_insert. lia.
      - intros j Hj. rewrite list_lookup_insert_ne by lia. apply Hzv. lia.
      - intros j Hj. rewrite list_lookup_insert_ne by lia. apply Hzr. lia.
      - by rewrite Hcur.
      - rewrite Nat2N.inj_succ. by apply decrypt_advance.
      - rewrite Nat2N.inj_succ. by apply decrypt_advance. }
    destruct Hprem as (l' & Hloop & Hlen & Hbelow & Hentries).
    exists l'. split; [exact Hloop|]. split; [done|]. split.
    + intros j Hj. rewrite Hbelow by lia. subst l1. simpl.
      by rewrite list_lookup_insert_ne by lia.
    + intros j Hj. destruct (decide (j = k)) as [->|Hne].
      * rewrite Hbelow by lia. subst l1. simpl.
        rewrite list_lookup_insert_eq by lia. by rewrite Hcur.
      * apply Hentries. lia.
Qed.

(** From a start node that decrypts to 0, and for 0 < [matrixSize] <= 2^32,
    [encryptedBFS] succeeds and returns [matrixSize] entries; entry [j] is
    what round [j] selects, [select(ne(0, 1) and gt(c, 0), c, 0)] on
    ciphertexts, for the cursor [c] that [j] encrypted increments make of
    the start node: every one of the [matrixSize] rounds has taken effect at
    its own position. *)
Theorem encryptedBFS_from_zero_returns (startNode : euint32) s :
  0 < matrixSize s → matrixSize s ≤ uint32_limit → decrypt startNode = 0 →
  ∃ res,
    encryptedBFS startNode s = Ok res
    ∧ length res = N.to_nat (matrixSize s)
    ∧ ∀ j, (j < N.to_nat (matrixSize s))%nat →
        res !! j
        = Some (fhe_select
                  (fhe_and (fhe_ne (asEuint32 0) (asEuint32 1))
                     (fhe_gt
                        (Nat.iter j (fun c => fhe_add c (asEuint32 1))
                           startNode)
                        (asEuint32 0)))
                  (Nat.iter j (fun c => fhe_add c (asEuint32 1)) startNode)
                  (asEuint32 0)).
Proof.
  intros Hpos Hsmall Hzero.
  assert (matrixSize s < alloc_limit)
    by (pose proof uint32_limit_allocates; lia).
  destruct (bfs_rounds_from_zero_entries startNode (N.to_nat (matrixSize s))
              (N.to_nat (matrixSize s)) 0
              {| visited := replicate (N.to_nat (matrixSize s)) (asEuint32 0);
                 queue := replicate (N.to_nat (matrixSize s)) (asEuint32 0);
                 bfs_result :=
                   replicate (N.to_nat (matrixSize s)) (asEuint32 0);
                 current := startNode; index := asEuint32 0 |})
    as (l' & Hloop & Hlen & _ & Hentries); simpl;
    [lia | lia | by rewrite length_replicate | by rewrite length_replicate
    | intros j Hj; apply lookup_replicate_2; lia
    | intros j Hj; apply lookup_replicate_2; lia
    | done | by rewrite Hzero | by rewrite decrypt_asEuint32 |].
  change (N.of_nat 0) with 0 in Hloop.
  exists (bfs_result l'). unfold encryptedBFS.
  rewrite bool_decide_eq_true_2 by done.
  rewrite require_true, bind_Ok, bfs_setup_spec, bind_Ok, Hloop, bind_Ok
    by done.
  split; [done|]. split; [done|].
  intros j Hj. apply Hentries. lia.
Qed.

(** The failures of [encryptedBFS]: "Matrix not initialized" exactly when
    [matrixSize] is 0, the allocation panic exactly when [matrixSize] is
    2^64 or more, and otherwise nothing but the out-of-range panic. *)
Theorem encryptedBFS_failure_kinds (startNode : euint32) s :
  (encryptedBFS startNode s = Revert MatrixNotInitialized ↔ matrixSize s = 0)
  ∧ (encryptedBFS startNode s = Revert (Panic AllocationTooLarge)
     ↔ alloc_limit ≤ matrixSize s)
  ∧ (∀ e, encryptedBFS startNode s = Revert e →
          e = MatrixNotInitialized ∨ e = Panic AllocationTooLarge
          ∨ e = Panic ArrayOutOfBounds).
Proof.
  assert (0 < alloc_limit) by done.
  destruct (decide (matrixSize s = 0)) as [Hz|Hnz].
  { assert (Hrev : encryptedBFS startNode s = Revert MatrixNotInitialized)
      by (unfold encryptedBFS; by rewrite Hz).
    rewrite Hrev. split; [done|]. split; [split; [done | lia]|].
    intros e [= <-]. by left. }
  assert (Hpos : 0 < matrixSize s) by lia.
  destruct (decide (alloc_limit ≤ matrixSize s)) as [Hbig|Hfit].
  { assert (Hrev : encryptedBFS startNode s
                   = Revert (Panic AllocationTooLarge)).
    { unfold encryptedBFS. rewrite bool_decide_eq_true_2 by done.
      by rewrite require_true, bind_Ok, bfs_setup_too_large. }
    rewrite Hrev. split; [split; [done | lia]|]. split; [done|].
    intros e [= <-]. right. by left. }
  unfold encryptedBFS. rewrite bool_decide_eq_true_2 by done.
  rewrite require_true, bind_Ok, bfs_setup_spec, bind_Ok by lia.
  destruct (for_range _ _ _ _) as [l|e0] eqn:E.
  - rewrite bind_Ok. split; [split; [done | lia]|].
    split; [split; [done | lia] | done].
  - apply bfs_rounds_Revert in E as ->.
    split; [split; [done | lia]|]. split; [split; [done | lia]|].
    intros e [= <-]. right. by right.
Qed.

(** The round that follows [j] rounds of [encryptedBFS] works at the
    subscripts [(decrypt startNode + j) mod 2^32] of [visited] and
    [j mod 2^32] of [result], which are the decrypted cursors: it reverts
    with the out-of-range panic when one of them is outside its array, and
    otherwise writes [visited] and [result] at exactly these subscripts,
    whatever the round counter. *)
Theorem encryptedBFS_round_writes (startNode : euint32) s (j : nat)
    (l0 lj : BfsLocals) :
  bfs_setup startNode s = Ok l0 →
  for_range 0 j bfs_round l0 = Ok lj →
  decrypt (current lj) = (decrypt startNode + N.of_nat j) `mod` uint32_limit
  ∧ decrypt (index lj) = N.of_nat j `mod` uint32_limit
  ∧ (N.of_nat (length (visited lj))
       ≤ (decrypt startNode + N.of_nat j) `mod` uint32_limit
     ∨ N.of_nat (length (bfs_result lj)) ≤ N.of_nat j `mod` uint32_limit →
     ∀ i, bfs_round i lj = Revert (Panic ArrayOutOfBounds))
  ∧ (∀ old_v old_r,
       visited lj
         !! N.to_nat ((decrypt startNode + N.of_nat j) `mod` uint32_limit)
       = Some old_v →
       bfs_result lj !! N.to_nat (N.of_nat j `mod` uint32_limit)
       = Some old_r →
       ∀ i,
         bfs_round i lj
         = Ok {| visited :=
                   <[N.to_nat ((decrypt startNode + N.of_nat j)
                               `mod` uint32_limit) :=
                       fhe_select
                         (fhe_and (fhe_ne old_v (asEuint32 1))
                                  (fhe_gt (current lj) (asEuint32 0)))
                         (asEuint32 1) old_v]> (visited lj);
                 queue := queue lj;
                 bfs_result :=
                   <[N.to_nat (N.of_nat j `mod` uint32_limit) :=
                       fhe_select
                         (fhe_and (fhe_ne old_v (asEuint32 1))
                                  (fhe_gt (current lj) (asEuint32 0)))
                         (current lj) old_r]> (bfs_result lj);
                 current := fhe_add (current lj) (asEuint32 1);
                 index := fhe_add (index lj) (asEuint32 1) |}).
Proof.
  intros Hsetup Hloop.
  assert (Hl0 : current l0 = startNode ∧ index l0 = asEuint32 0).
  { destruct (decide (matrixSize s < alloc_limit)) as [Hfit|Hbig].
    - rewrite bfs_setup_spec in Hsetup by done. by injection Hsetup as <-.
    - by rewrite bfs_setup_too_large in Hsetup by lia. }
  destruct Hl0 as [Hc0 Hi0].
  apply bfs_rounds_cursors in Hloop as [Hc Hi].
  rewrite Hc0 in Hc. rewrite Hi0, decrypt_asEuint32 in Hi.
  rewrite N.Div0.add_mod_idemp_l in Hi.
  change (0 + N.of_nat j) with (N.of_nat j) in Hi.
  split; [done|]. split; [done|]. split.
  - intros [Hv|Hr] i.
    + apply bfs_round_oob. unfold visited_subscript. by rewrite Hc.
    + apply bfs_round_result_oob. unfold result_subscript. by rewrite Hi.
  - intros old_v old_r Hv Hr i. rewrite <- Hc, <- Hi in *.
    by apply bfs_round_exact.
Qed.

End TraversalEffect.

(** ** Further runs on concrete inputs *)

Section ConcreteRuns.
#[local] Existing Instance plain_FHEVM.

Lemma ledger_ids_are_one_to_count_witness :
  (is_Some (encryptedTransactions
              (run [Submit 1 2 3 4 5 100; Submit 6 7 8 9 10 101] deployed)
            !! 2)
   ↔ 1 ≤ 2 ≤ transactionCount
               (run [Submit 1 2 3 4 5 100; Submit 6 7 8 9 10 101] deployed))
  ∧ (∀ tx,
       encryptedTransactions
         (run [Submit 1 2 3 4 5 100; Submit 6 7 8 9 10 101] deployed) !! 2
       = Some tx → id tx = 2).
Proof.
  refine (ledger_ids_are_one_to_count
            (run [Submit 1 2 3 4 5 100; Submit 6 7 8 9 10 101] deployed) 2 _).
  by eexists.
Defined.

Lemma ledger_is_append_only_witness :
  encryptedTransactions
    (run [Submit 6 7 8 9 10 101; InitMatrix 2; Store 1 [11] 13]
       (run [Submit 1 2 3 4 5 100] deployed)) !! 1
  = Some {| id := 1; encryptedTraderId := 1; encryptedCounterparty := 2;
            encryptedSecurity := 3; encryptedAmount := 4;
            encryptedTimestamp := 5; submissionTime := 100 |}.
Proof.
  refine (ledger_is_append_only (run [Submit 1 2 3 4 5 100] deployed) 1 _
            [Submit 6 7 8 9 10 101; InitMatrix 2; Store 1 [11] 13] _ _);
    [by eexists | reflexivity].
Defined.

Lemma matrix_is_square_witness :
  N.of_nat (length (encryptedAdjacencyMatrix matrix_of_three))
  = matrixSize matrix_of_three * matrixSize matrix_of_three
  ∧ ∃ c, getAdjacencyElement 2 1 matrix_of_three = Ok c
         ∧ encryptedAdjacencyMatrix matrix_of_three
             !! N.to_nat (2 * matrixSize matrix_of_three + 1) = Some c.
Proof.
  assert (Hreach : reachable matrix_of_three) by (by exists [InitMatrix 3]).
  split.
  - exact (proj1 (matrix_is_square matrix_of_three 2 1 Hreach)).
  - refine (proj2 (matrix_is_square matrix_of_three 2 1 Hreach) _ _);
      by vm_compute.
Defined.

Lemma initialize_then_get_zero_witness :
  ∃ s', initializeAdjacencyMatrix 2
          (run [InitMatrix 3; AddEdge 1 1 42] deployed) = Ok s'
        ∧ getAdjacencyElement 1 1 s' = Ok (asEuint32 0).
Proof.
  refine (initialize_then_get_zero _ 2 1 1 _ _ _); by vm_compute.
Defined.

Lemma edge_set_keeps_other_cells_witness :
  ∃ s', addEncryptedEdge 1 2 42 matrix_of_three = Ok s'
        ∧ matrixSize s' = matrixSize matrix_of_three
        ∧ getAdjacencyElement 2 1 s' = getAdjacencyElement 2 1 matrix_of_three.
Proof.
  refine (edge_set_keeps_other_cells matrix_of_three 1 2 2 1 42 _ _ _ _ _ _);
    [by exists [InitMatrix 3] | by vm_compute.. | discriminate].
Defined.

Lemma encryptedBFS_ignores_edges_witness :
  encryptedBFS 0 (run [AddEdge 0 1 1] matrix_of_three)
  = encryptedBFS 0 matrix_of_three.
Proof.
  refine (encryptedBFS_ignores_edges matrix_of_three _ 0 1 1 0 _).
  reflexivity.
Defined.

Lemma encryptedBFS_off_zero_witness :
  encryptedBFS 5 matrix_of_three = Revert (Panic ArrayOutOfBounds)
  ∧ (encryptedBFS_rounds 5%N matrix_of_three
     < N.to_nat (matrixSize matrix_of_three))%nat.
Proof.
  refine (encryptedBFS_off_zero 5 matrix_of_three _ _ _);
    [by vm_compute | by vm_compute | discriminate].
Defined.

Lemma revealed_only_if_complete_witness :
  isComplete (analysisResults_at revealed_once 1) = true.
Proof.
  refine (proj2 (revealed_only_if_complete revealed_once 1 _) _);
    [by eexists | by vm_compute].
Defined.

Lemma unrevealed_result_reads_empty_witness :
  getDecryptedAnalysisResult 1 request_pending = Ok ([], 0, false).
Proof.
  refine (unrevealed_result_reads_empty request_pending 1 _ _);
    [by eexists | by vm_compute].
Defined.

Lemma stored_bundle_reads_back_witness :
  getEncryptedAnalysisResult 1 revealed_once = Ok ([11; 12], 13).
Proof.
  refine (stored_bundle_reads_back deployed 1 [11; 12] 13
            [RequestReveal 1 7;
             Callback 7 (plain_abi_encode [5; 9; 7]) [Byte.x01]] _).
  repeat constructor.
Defined.

Lemma never_stored_id_has_no_result_witness :
  getEncryptedAnalysisResult 2 revealed_once = Revert AnalysisNotComplete
  ∧ (∀ reqId,
       requestResultDecryption 2 reqId revealed_once
       = Revert AnalysisNotComplete)
  ∧ getDecryptedAnalysisResult 2 revealed_once = Ok ([], 0, false).
Proof.
  refine (never_stored_id_has_no_result 2
            [Store 1 [11; 12] 13; RequestReveal 1 7;
             Callback 7 (plain_abi_encode [5; 9; 7]) [Byte.x01]] _).
  repeat constructor.
Defined.

Lemma store_request_callback_reads_back_witness :
  getDecryptedAnalysisResult 1 revealed_once = Ok ([5; 9], 7, true).
Proof.
  refine (store_request_callback_reads_back deployed 1 7 [11; 12] 13
            (plain_abi_encode [5; 9; 7]) [Byte.x01] [5; 9] 7 _ _ _);
    [discriminate | by vm_compute | by vm_compute].
Defined.

Lemma callback_failures_in_order_witness :
  decryptAnalysisResult 7 (plain_abi_encode []) [Byte.x01] request_pending
  = Revert (Panic ArithmeticOverflow)
  ∧ decryptAnalysisResult 7 (plain_abi_encode [5; 9; 7]) [] request_pending
    = Revert ProofVerificationFailed
  ∧ decryptAnalysisResult 8 (plain_abi_encode [5; 9; 7]) [Byte.x01]
      request_pending
    = Revert InvalidRequest.
Proof.
  split; [|split].
  - refine (proj2 (proj2 (proj2
              (callback_failures_in_order request_pending 7
                 (plain_abi_encode []) [Byte.x01]))) _ _ _ _);
      [by vm_compute..].
  - refine (proj1 (proj2 (proj2
              (callback_failures_in_order request_pending 7
                 (plain_abi_encode [5; 9; 7]) []))) _ _ _);
      [by vm_compute..].
  - refine (proj1 (callback_failures_in_order request_pending 8
                     (plain_abi_encode [5; 9; 7]) [Byte.x01]) _).
    by vm_compute.
Defined.

Lemma edge_persists_witness :
  getAdjacencyElement 1 2
    (run [AddEdge 1 2 42; AddEdge 2 1 7; Store 1 [11] 13; AddEdge 5 5 9;
          Submit 1 2 3 4 5 100] matrix_of_three)
  = Ok 42.
Proof.
  refine (edge_persists matrix_of_three 1 2 42
            [AddEdge 2 1 7; Store 1 [11] 13; AddEdge 5 5 9;
             Submit 1 2 3 4 5 100] _ _ _ _);
    [by exists [InitMatrix 3] | by vm_compute | by vm_compute |].
  repeat constructor; discriminate.
Defined.

Lemma callback_touches_one_result_witness :
  analysisResults revealed_once = analysisResults request_pending
  ∧ (∀ k, k ≠ requestToAnalysisId_at request_pending 7 →
          decryptedResults_at revealed_once k
          = decryptedResults_at request_pending k)
  ∧ requestToAnalysisId revealed_once = requestToAnalysisId request_pending
  ∧ encryptedAdjacencyMatrix revealed_once
    = encryptedAdjacencyMatrix request_pending
  ∧ matrixSize revealed_once = matrixSize request_pending
  ∧ encryptedTransactions revealed_once
    = encryptedTransactions request_pending
  ∧ transactionCount revealed_once = transactionCount request_pending
  ∧ events revealed_once
    = events request_pending
      ++ [ResultRevealed (requestToAnalysisId_at request_pending 7)].
Proof.
  refine (callback_touches_one_result request_pending revealed_once 7
            (plain_abi_encode [5; 9; 7]) [Byte.x01] _).
  reflexivity.
Defined.

Lemma encryptedBFS_from_zero_returns_witness :
  ∃ res,
    encryptedBFS 0 matrix_of_three = Ok res
    ∧ length res = N.to_nat (matrixSize matrix_of_three)
    ∧ ∀ j, (j < N.to_nat (matrixSize matrix_of_three))%nat →
        res !! j
        = Some (fhe_select
                  (fhe_and (fhe_ne (asEuint32 0) (asEuint32 1))
                     (fhe_gt
                        (Nat.iter j (fun c => fhe_add c (asEuint32 1)) 0)
                        (asEuint32 0)))
                  (Nat.iter j (fun c => fhe_add c (asEuint32 1)) 0)
                  (asEuint32 0)).
Proof.
  refine (encryptedBFS_from_zero_returns 0 matrix_of_three _ _ _);
    by vm_compute.
Defined.

Lemma encryptedBFS_failure_kinds_witness :
  encryptedBFS 1 deployed = Revert MatrixNotInitialized
  ∧ (Panic ArrayOutOfBounds = MatrixNotInitialized
     ∨ Panic ArrayOutOfBounds = Panic AllocationTooLarge
     ∨ Panic ArrayOutOfBounds = Panic ArrayOutOfBounds).
Proof.
  split.
  - refine (proj2 (proj1 (encryptedBFS_failure_kinds 1 deployed)) _).
    reflexivity.
  - refine (proj2 (proj2 (encryptedBFS_failure_kinds 1 matrix_of_three))
              (Panic ArrayOutOfBounds) _).
    reflexivity.
Defined.

Lemma encryptedBFS_round_writes_witness :
  bfs_round 7
    {| visited := [0; 1; 0]; queue := [0; 0; 0]; bfs_result := [1; 0; 0];
       current := 2; index := 1 |}
  = Ok {| visited := [0; 1; 1]; queue := [0; 0; 0]; bfs_result := [1; 2; 0];
          current := 3; index := 2 |}.
Proof.
  refine (proj2 (proj2 (proj2
            (encryptedBFS_round_writes 1 matrix_of_three 1
               {| visited := [0; 0; 0]; queue := [0; 0; 0];
                  bfs_result := [0; 0; 0]; current := 1; index := 0 |}
               {| visited := [0; 1; 0]; queue := [0; 0; 0];
                  bfs_result := [1; 0; 0]; current := 2; index := 1 |}
               _ _))) 0 0 _ _ 7);
    reflexivity.
Defined.

End ConcreteRuns.
